(** * REST-API-Attest: the user CRUD service of [Rest-API-Attest.js]

    A shallow embedding of the Express application: the JSON values it
    handles, the Joi schema [userSchema] and its validation, the two file
    helpers [readUsersFile] / [writeUsersFile], and the six route handlers.

    Conventions of the embedding.
    - A JavaScript string is a [string]; each [ascii] stands for one UTF-16
      code unit, so the model covers the texts whose code units are in
      0..255 (Latin-1), and every statement about letter case is a statement
      about such texts.
    - A JavaScript number is its exact value: a rational, or one of the two
      infinities ([JSON.parse] never yields NaN).
    - A JavaScript object is the association list of its own properties in
      the order of their enumeration, with [get] to read one and [set] to
      assign one (in place when the key exists, at the end otherwise).
      Objects coming from [JSON.parse] have pairwise distinct keys
      ([distinct_keys]); [__proto__] is an own key like any other there.
    - The file [users.json] holds text; text written by [JSON.stringify] is
      represented by the value it parses back to.  The two agree on values
      free of infinite numbers ([finite]); an infinity, which only text
      such as [1e400] put into the file or into a body from outside can
      bring in, would be written back as [null], and the statements that
      depend on what is written for it say that they leave it out.
    - A write fails at the open ([write_error]), which leaves the file as
      it is, or is cut short once the file is open ([Fragile]), which
      leaves it truncated.
    - [uuidv4()] and [new Date().toISOString()] are inputs of the handlers:
      the handler receives the values those calls returned.
    - A request body is the JSON value that [express.json()] produced, the
      empty object when the request carries none (as Express 4 leaves it);
      a request whose body it cannot parse is [Malformed].
    - A query parameter is absent, one text, or, when the query string
      repeats or indexes the name, an array or an object ([param]). *)

From Stdlib Require Import List String Ascii Bool Arith ZArith QArith Lia.
Import ListNotations.
Open Scope string_scope.
Open Scope list_scope.
Open Scope nat_scope.

(** ** JSON values *)

Inductive number :=
| Fin (q : Q)
| PosInf
| NegInf.

#[warnings="-register-all"]
Inductive json :=
| JNull
| JBool (b : bool)
| JNum (x : number)
| JStr (s : string)
| JArr (l : list json)
| JObj (o : list (string * json)).

Definition obj := list (string * json).

Module Obj.

(** [o[k]] for an own property; [None] is [undefined]. *)
Fixpoint get (k : string) (o : obj) : option json :=
  match o with
  | [] => None
  | (k', v) :: o' => if String.eqb k k' then Some v else get k o'
  end.

(** [o[k] = v]. *)
Fixpoint set (k : string) (v : json) (o : obj) : obj :=
  match o with
  | [] => [(k, v)]
  | (k', v') :: o' =>
      if String.eqb k k' then (k', v) :: o' else (k', v') :: set k v o'
  end.

(** [Object.keys(o)]. *)
Definition keys (o : obj) : list string := map fst o.

(** [{...target, ...src}]: every property of [src] assigned, in order,
    onto a copy of [target]. *)
Definition spread (target src : obj) : obj :=
  fold_left (fun acc kv => set (fst kv) (snd kv) acc) src target.

Definition has (k : string) (o : obj) : bool :=
  existsb (String.eqb k) (keys o).

Fixpoint distinct (ks : list string) : bool :=
  match ks with
  | [] => true
  | k :: ks' => negb (existsb (String.eqb k) ks') && distinct ks'
  end.

Definition distinct_keys (o : obj) : bool := distinct (keys o).

End Obj.

(** ** JavaScript string methods *)

(** [String.prototype.toLowerCase] on one code unit of the Latin-1 range:
    A-Z and the accented capitals U+00C0..U+00DE (except the multiplication
    sign U+00D7) move up by 32. *)
Definition lower_unit (c : ascii) : ascii :=
  let n := nat_of_ascii c in
  if ((65 <=? n) && (n <=? 90)) ||
     ((192 <=? n) && (n <=? 222) && negb (n =? 215))
  then ascii_of_nat (n + 32)
  else c.

Fixpoint toLowerCase (s : string) : string :=
  match s with
  | EmptyString => EmptyString
  | String c s' => String (lower_unit c) (toLowerCase s')
  end.

(** [s.includes(t)]. *)
Fixpoint includes (s t : string) : bool :=
  if String.prefix t s then true
  else match s with
       | EmptyString => false
       | String _ s' => includes s' t
       end.

(** ** Joi

    Validation as the library performs it for this schema, with the options
    the source gives ([abortEarly: false]) and the library's defaults for the
    rest: values are converted ([convert: true]), keys are optional unless
    [.required()], and keys that the schema does not declare are errors
    ([allowUnknown: false]). *)

(** The result of Joi's string-to-number coercion ([convert] is on by
    default): the string is not numeric and is left alone, or it parses to a
    number, possibly with a loss of precision that Joi reports. *)
Inductive coerced :=
| NotNumeric
| Unsafe
| Parsed (x : number).

(** The two routines of the validation library that the schema relies on
    and that are data-driven: the e-mail address check behind
    [Joi.string().email()] and the numeric-string parser. *)
Class JoiLib := {
  isEmail : string -> bool;
  numberFromString : string -> coerced
}.

(** Joi error types; [detail.message] is the rendering of the type for the
    label of the failing key. *)
Inductive joi_code :=
| any_required
| string_base | string_empty | string_min | string_max | string_email
| number_base | number_infinity | number_unsafe | number_min | number_max
| boolean_base
| array_base
| object_base | object_unknown.

(** [detail.context.key]: the last element of the error path, a property
    name or an array index. *)
Inductive key :=
| KName (s : string)
| KIndex (i : nat).

(** One element of the [errors] array of a 422 response. *)
Record error_entry := { field : option key; message : joi_code }.

Inductive string_rule :=
| SMin (limit : nat)
| SMax (limit : nat)
| SEmail.

Inductive number_rule :=
| NMin (limit : Q)
| NMax (limit : Q).

Inductive schema :=
| JoiString (rules : list string_rule)
| JoiNumber (rules : list number_rule)
| JoiBoolean
| JoiArray (items : schema).

(** A key of [Joi.object({...})] with the flags set by [.required()] and
    [.default(v)]. *)
Record child := {
  name : string;
  type : schema;
  required : bool;
  default : option json
}.

(** [userSchema], lines 23-45. *)
Definition userSchema : list child :=
  [ {| name := "firstName"; type := JoiString [SMin 2; SMax 50];
       required := true; default := None |};
    {| name := "lastName"; type := JoiString [SMin 2; SMax 50];
       required := true; default := None |};
    {| name := "age"; type := JoiNumber [NMin (1 # 1); NMax (120 # 1)];
       required := true; default := None |};
    {| name := "email"; type := JoiString [SEmail];
       required := true; default := None |};
    {| name := "city"; type := JoiString [SMin 2; SMax 50];
       required := false; default := None |};
    {| name := "hobbies"; type := JoiArray (JoiString []);
       required := false; default := Some (JArr []) |};
    {| name := "isActive"; type := JoiBoolean;
       required := false; default := Some (JBool true) |} ].

Definition MAX_SAFE_INTEGER : Q := 9007199254740991 # 1.

Definition Qlt_bool (a b : Q) : bool := negb (Qle_bool b a).

Section Validation.

Context {lib : JoiLib}.

Definition string_rule_fails (s : string) (r : string_rule) : list joi_code :=
  match r with
  | SMin limit => if limit <=? String.length s then [] else [string_min]
  | SMax limit => if String.length s <=? limit then [] else [string_max]
  | SEmail => if isEmail s then [] else [string_email]
  end.

Definition number_rule_fails (q : Q) (r : number_rule) : list joi_code :=
  match r with
  | NMin limit => if Qle_bool limit q then [] else [number_min]
  | NMax limit => if Qle_bool q limit then [] else [number_max]
  end.

(** The base check of [Joi.number()] followed by its rules; a base error
    ends the validation of the value. *)
Definition number_fails (rules : list number_rule) (x : number) : list joi_code :=
  match x with
  | PosInf | NegInf => [number_infinity]
  | Fin q =>
      if Qlt_bool MAX_SAFE_INTEGER q || Qlt_bool q (Qopp MAX_SAFE_INTEGER)
      then [number_unsafe]
      else flat_map (number_rule_fails q) rules
  end.

Definition at_key (k : key) (codes : list joi_code) : list error_entry :=
  map (fun c => {| field := Some k; message := c |}) codes.

(** The loop of [array.items] over the elements: each one is checked at
    the path ending in its index, and with [abortEarly: false] the loop
    goes on after an error. *)
Fixpoint validate_items (check : key -> json -> json * list error_entry)
    (i : nat) (l : list json) : list json * list error_entry :=
  match l with
  | [] => ([], [])
  | item :: l' =>
      let (item', errs) := check (KIndex i) item in
      let (rest, errs') := validate_items check (S i) l' in
      (item' :: rest, errs ++ errs')
  end.

(** Validation of a value that is not [undefined] against a schema, at the
    path ending in [k]: the converted value and the errors.  With
    [abortEarly: false] every rule runs and every array item is checked. *)
Fixpoint validate_value (s : schema) (k : key) (v : json)
  : json * list error_entry :=
  match s with
  | JoiString rules =>
      match v with
      | JStr EmptyString => (v, at_key k [string_empty])
      | JStr str => (v, at_key k (flat_map (string_rule_fails str) rules))
      | _ => (v, at_key k [string_base])
      end
  | JoiNumber rules =>
      match v with
      | JNum x => (v, at_key k (number_fails rules x))
      | JStr str =>
          match numberFromString str with
          | NotNumeric => (v, at_key k [number_base])
          | Unsafe => (v, at_key k [number_unsafe])
          | Parsed x => (JNum x, at_key k (number_fails rules x))
          end
      | _ => (v, at_key k [number_base])
      end
  | JoiBoolean =>
      match v with
      | JBool _ => (v, [])
      | JStr str =>
          let normalized := toLowerCase str in
          if String.eqb normalized "true" then (JBool true, [])
          else if String.eqb normalized "false" then (JBool false, [])
          else (v, at_key k [boolean_base])
      | _ => (v, at_key k [boolean_base])
      end
  | JoiArray items =>
      match v with
      | JArr l =>
          let (l', errs) := validate_items (validate_value items) 0 l in
          (JArr l', errs)
      | _ => (v, at_key k [array_base])
      end
  end.

(** Validation of the property [value[c.name]], which may be [undefined]:
    presence first, then the value; a missing optional property takes the
    default. *)
Definition validate_child (c : child) (item : option json)
  : option json * list error_entry :=
  match item with
  | None =>
      if required c
      then (None, at_key (KName (name c)) [any_required])
      else (default c, [])
  | Some v =>
      let (v', errs) := validate_value (type c) (KName (name c)) v in
      (Some v', errs)
  end.

(** The validation works on a copy of the body made by [Object.assign]
    onto a fresh object.  Assigning goes through the setter of [__proto__]:
    an own [__proto__] key of the body does not become a property of the
    copy; when its value is an object, that object becomes the prototype of
    the copy. *)
Definition assigned (o : obj) : obj :=
  filter (fun kv => negb (String.eqb (fst kv) "__proto__")) o.

Definition prototype (o : obj) : obj :=
  match Obj.get "__proto__" o with
  | Some (JObj p) => p
  | _ => []
  end.

(** [value[k]] on the copy, for the name of a schema key: an own property,
    or else a property of the prototype. *)
Definition read (k : string) (proto value : obj) : option json :=
  match Obj.get k value with
  | Some v => Some v
  | None => Obj.get k proto
  end.

(** The loop over the keys of an object schema: each key in schema order,
    its result written back into the copy of the value. *)
Definition validate_keys (children : list child) (proto value : obj)
  : obj * list error_entry :=
  fold_left
    (fun (acc : obj * list error_entry) (c : child) =>
       let (value, errors) := acc in
       let (v, errs) := validate_child c (read (name c) proto value) in
       (match v with
        | Some x => Obj.set (name c) x value
        | None => value
        end, errors ++ errs))
    children (value, []).

Definition is_schema_key (children : list child) (k : string) : bool :=
  existsb (fun c => String.eqb k (name c)) children.

(** Own keys of the copy that the schema does not declare: [allowUnknown]
    is off by default, so each one is an error. *)
Definition unknown_errors (children : list child) (value : obj)
  : list error_entry :=
  map (fun k => {| field := Some (KName k); message := object_unknown |})
      (filter (fun k => negb (is_schema_key children k)) (Obj.keys value)).

Inductive validation :=
| Valid (value : obj)
| Invalid (details : list error_entry).

(** [userSchema.validate(body)] with the schema's [abortEarly: false]. *)
Definition validate (body : json) : validation :=
  match body with
  | JObj o =>
      let (value, errors) :=
        validate_keys userSchema (prototype o) (assigned o) in
      match errors ++ unknown_errors userSchema (assigned o) with
      | [] => Valid value
      | details => Invalid details
      end
  | _ => Invalid [ {| field := None; message := object_base |} ]
  end.

End Validation.

(** ** Exceptions and the file system *)

Inductive exn :=
| Errno (code : string)     (* a rejected [fs] promise, with [error.code] *)
| SyntaxError               (* thrown by [JSON.parse] *)
| TypeError.                (* property of [null], call of a non-function *)

Inductive outcome (A : Type) :=
| Return (a : A)
| Throw (e : exn).
Arguments Return {A} a.
Arguments Throw {A} e.

(** The text of [users.json]: the serialization of an array of JSON values,
    identified with that array, or text that [JSON.parse] rejects. *)
Inductive text :=
| Encoded (users : list json)
| Garbage.

Inductive file :=
| Absent                      (* reading fails with ENOENT *)
| Unreadable (code : string)  (* reading fails with this code *)
| Holds (t : text)
| Fragile (t : text) (code : string).
    (* holds [t]; a write is cut short with this code once the file is
       open, that is, after the open has truncated it.  On a file that does
       not exist yet, a failing write is taken to fail at the open. *)

(** The persisted state and the medium's ability to take a write:
    [write_error] is the code with which opening the file for writing
    fails, if it does. *)
Record disk := { users_json : file; write_error : option string }.

(** Computations that read and write the file and may throw. *)
Definition IO (A : Type) := disk -> outcome A * disk.

Class Monad (m : Type -> Type) := {
  ret : forall {A}, A -> m A;
  bind : forall {A B}, m A -> (A -> m B) -> m B
}.

#[export] Instance outcome_monad : Monad outcome := {
  ret := fun A a => Return a;
  bind := fun A B c f =>
    match c with
    | Return a => f a
    | Throw e => Throw e
    end
}.

#[export] Instance IO_monad : Monad IO := {
  ret := fun A a d => (Return a, d);
  bind := fun A B c f d =>
    match c d with
    | (Return a, d') => f a d'
    | (Throw e, d') => (Throw e, d')
    end
}.

Notation "x <- c ;; k" := (bind c (fun x => k))
  (at level 61, c at next level, right associativity).
Notation "c ;;; k" := (bind c (fun _ => k))
  (at level 61, right associativity).

Definition lift {A} (c : outcome A) : IO A := fun d => (c, d).

Definition throw {A} (e : exn) : IO A := fun d => (Throw e, d).

(** [try { body } catch (error) { handler(error) }]. *)
Definition try_catch {A} (body : IO A) (handler : exn -> IO A) : IO A :=
  fun d =>
    match body d with
    | (Return a, d') => (Return a, d')
    | (Throw e, d') => handler e d'
    end.

(** [error.code === code]. *)
Definition code_is (e : exn) (code : string) : bool :=
  match e with
  | Errno c => String.eqb c code
  | _ => false
  end.

Definition readFile : IO text :=
  fun d =>
    match users_json d with
    | Absent => (Throw (Errno "ENOENT"), d)
    | Unreadable c => (Throw (Errno c), d)
    | Holds t | Fragile t _ => (Return t, d)
    end.

(** [fs.writeFile] opens the file with the flag [w], which creates or
    truncates it, and then writes.  A failure of the open leaves the file as
    it is; a failure after the open leaves a file that holds at most a
    proper prefix of the new text, which [JSON.parse] rejects. *)
Definition writeFile (t : text) : IO unit :=
  fun d =>
    match write_error d with
    | Some c => (Throw (Errno c), d)
    | None =>
        match users_json d with
        | Fragile _ c =>
            (Throw (Errno c),
             {| users_json := Fragile Garbage c; write_error := None |})
        | _ => (Return tt, {| users_json := Holds t; write_error := None |})
        end
    end.

Definition JSON_parse (t : text) : outcome (list json) :=
  match t with
  | Encoded users => Return users
  | Garbage => Throw SyntaxError
  end.

(** [readUsersFile], lines 48-59. *)
Definition readUsersFile : IO (list json) :=
  try_catch
    (data <- readFile ;; lift (JSON_parse data))
    (fun error =>
       if code_is error "ENOENT"
       then writeFile (Encoded []) ;;; ret []
       else throw error).

(** [writeUsersFile], lines 61-63. *)
Definition writeUsersFile (users : list json) : IO unit :=
  writeFile (Encoded users).

(** ** Responses *)

(** The fixed texts of the [message] field. *)
Inductive note :=
| user_not_found
| user_deleted
| list_failed | get_failed | create_failed | update_failed | patch_failed
| delete_failed
| resource_not_found
| internal_error.

(** The JSON envelope of a response. *)
Inductive envelope :=
| SuccessList (data : list json) (total returned : nat)
| Success (data : json)
| SuccessNote (data : json) (message : note)
| ValidationFailed (errors : list error_entry)
| Failure (message : note).

Record response := { status : nat; body : envelope }.

(** A route handler ends with one response and never throws: the body of
    each handler is wrapped in [try ... catch] answering 500. *)
Definition handler := disk -> response * disk.

Definition guarded (c : IO response) (failed : note) : handler :=
  fun d =>
    match c d with
    | (Return r, d') => (r, d')
    | (Throw _, d') => ({| status := 500; body := Failure failed |}, d')
    end.

Definition json_ok (e : envelope) : response := {| status := 200; body := e |}.

Definition not_found : response :=
  {| status := 404; body := Failure user_not_found |}.

(** ** Expressions used by the handlers *)

(** [u[k]] on a value read from the file, for the property names the
    handlers use: [null] has no properties, and neither arrays nor
    primitives have any of these names. *)
Definition prop (k : string) (u : json) : outcome (option json) :=
  match u with
  | JNull => Throw TypeError
  | JObj o => Return (Obj.get k o)
  | _ => Return None
  end.

(** [v.toLowerCase()]. *)
Definition call_toLowerCase (v : option json) : outcome string :=
  match v with
  | Some (JStr s) => Return (toLowerCase s)
  | _ => Throw TypeError
  end.

(** JavaScript truthiness. *)
Definition truthy (v : option json) : bool :=
  match v with
  | None | Some JNull | Some (JBool false) | Some (JStr EmptyString) => false
  | Some (JNum (Fin q)) => negb (Qeq_bool q 0)
  | Some _ => true
  end.

(** [v === s] for a string [s]. *)
Definition strict_eq_string (v : option json) (s : string) : bool :=
  match v with
  | Some (JStr s') => String.eqb s' s
  | _ => false
  end.

(** [v === b] for a boolean [b]. *)
Definition strict_eq_bool (v : option json) (b : bool) : bool :=
  match v with
  | Some (JBool b') => Bool.eqb b' b
  | _ => false
  end.

(** [Array.prototype.filter] with a callback that may throw. *)
Fixpoint filterM (p : json -> outcome bool) (l : list json) : outcome (list json) :=
  match l with
  | [] => Return []
  | u :: l' =>
      keep <- p u ;;
      rest <- filterM p l' ;;
      ret (if keep : bool then u :: rest else rest)
  end.

(** [Array.prototype.find]; [None] is [undefined]. *)
Fixpoint find (p : json -> outcome bool) (l : list json) : outcome (option json) :=
  match l with
  | [] => Return None
  | u :: l' =>
      hit <- p u ;;
      if hit : bool then ret (Some u) else find p l'
  end.

(** [Array.prototype.findIndex]; [None] is [-1]. *)
Fixpoint findIndex (p : json -> outcome bool) (l : list json) : outcome (option nat) :=
  match l with
  | [] => Return None
  | u :: l' =>
      hit <- p u ;;
      if hit : bool then ret (Some 0)
      else i <- findIndex p l' ;; ret (option_map S i)
  end.

(** [u => u.id === id]. *)
Definition id_is (id : string) (u : json) : outcome bool :=
  v <- prop "id" u ;; ret (strict_eq_string v id).

(** [users[i] = v] for an index inside the array. *)
Fixpoint store_at (i : nat) (v : json) (l : list json) : list json :=
  match l, i with
  | [], _ => []
  | _ :: l', 0 => v :: l'
  | u :: l', S i' => u :: store_at i' v l'
  end.

(** [users.splice(i, 1)]: the array without its [i]-th element. *)
Fixpoint splice_out (i : nat) (l : list json) : list json :=
  match l, i with
  | [], _ => []
  | _ :: l', 0 => l'
  | u :: l', S i' => u :: splice_out i' l'
  end.

(** The own properties copied by [...v] when [v] is an object; the handlers
    only spread values that are objects. *)
Definition props (v : json) : obj :=
  match v with
  | JObj o => o
  | _ => []
  end.

(** [if (param)]: a query parameter is used when present and non-empty. *)
Definition supplied (param : option string) : option string :=
  match param with
  | Some EmptyString => None
  | p => p
  end.

(** ** Route handlers *)

(** The three callbacks of the list handler, lines 97-110. *)
Definition q_callback (searchTerm : string) (user : json) : outcome bool :=
  first <- prop "firstName" user ;;
  f <- call_toLowerCase first ;;
  if includes f searchTerm then ret true
  else
    last <- prop "lastName" user ;;
    l <- call_toLowerCase last ;;
    ret (includes l searchTerm).

Definition city_callback (city : string) (user : json) : outcome bool :=
  c <- prop "city" user ;;
  if truthy c
  then lc <- call_toLowerCase c ;; ret (String.eqb lc (toLowerCase city))
  else ret false.

Definition isActive_callback (isActive : string) (user : json) : outcome bool :=
  a <- prop "isActive" user ;;
  ret (strict_eq_bool a (String.eqb isActive "true")).

Definition filter_when (param : option string)
    (callback : string -> json -> outcome bool) (users : list json)
  : outcome (list json) :=
  match supplied param with
  | Some p => filterM (callback p) users
  | None => Return users
  end.

(** [GET /v1/users], lines 88-127, on query parameters that are each absent
    or given once. *)
Definition list_users (q city isActive : option string) : handler :=
  guarded
    (users <- readUsersFile ;;
     filteredUsers <-
       lift (by_q <- filter_when q (fun q => q_callback (toLowerCase q)) users ;;
             by_city <- filter_when city city_callback by_q ;;
             filter_when isActive isActive_callback by_city) ;;
     ret (json_ok (SuccessList filteredUsers
                     (List.length filteredUsers) (List.length filteredUsers))))
    list_failed.

(** A query parameter as Express hands it over in [req.query]: the text of
    the parameter, or an array or an object when the query string repeats
    the name or indexes it ([?q=a&q=b], [?q[k]=a]). *)
#[warnings="-register-all"]
Inductive param :=
| Text (s : string)
| Repeated (values : list param)
| Nested (fields : list (string * param)).

(** [if (p)] on a query parameter: an absent parameter and the empty text
    are falsy, arrays and objects are truthy. *)
Definition given (p : option param) : option param :=
  match p with
  | Some (Text EmptyString) => None
  | p => p
  end.

(** [p.toLowerCase()] on a query parameter: only a text has the method. *)
Definition param_toLowerCase (p : param) : outcome string :=
  match p with
  | Text s => Return (toLowerCase s)
  | _ => Throw TypeError
  end.

(** [p === 'true'] on a query parameter. *)
Definition param_is_true (p : param) : bool :=
  match p with
  | Text s => String.eqb s "true"
  | _ => false
  end.

(** The callbacks of lines 103-105 and 108-110 on a parameter of any
    shape. *)
Definition city_filter (city : param) (user : json) : outcome bool :=
  c <- prop "city" user ;;
  if truthy c
  then lc <- call_toLowerCase c ;;
       lcity <- param_toLowerCase city ;;
       ret (String.eqb lc lcity)
  else ret false.

Definition isActive_filter (isActive : param) (user : json) : outcome bool :=
  a <- prop "isActive" user ;;
  ret (strict_eq_bool a (param_is_true isActive)).

(** [GET /v1/users], lines 88-127, on query parameters of any shape;
    [list_users] is this handler on parameters that are each absent or one
    text. *)
Definition list_query (q city isActive : option param) : handler :=
  guarded
    (users <- readUsersFile ;;
     filteredUsers <-
       lift (by_q <- match given q with
                     | Some q =>
                         searchTerm <- param_toLowerCase q ;;
                         filterM (q_callback searchTerm) users
                     | None => ret users
                     end ;;
             by_city <- match given city with
                        | Some city => filterM (city_filter city) by_q
                        | None => ret by_q
                        end ;;
             match given isActive with
             | Some isActive => filterM (isActive_filter isActive) by_city
             | None => ret by_city
             end) ;;
     ret (json_ok (SuccessList filteredUsers
                     (List.length filteredUsers) (List.length filteredUsers))))
    list_failed.

(** [GET /v1/users/:id], lines 129-151. *)
Definition get_user (id : string) : handler :=
  guarded
    (users <- readUsersFile ;;
     user <- lift (find (id_is id) users) ;;
     match user with
     | Some u => if truthy user then ret (json_ok (Success u)) else ret not_found
     | None => ret not_found
     end)
    get_failed.

Section Handlers.

Context {lib : JoiLib}.

(** [validateUserData], lines 71-85: answers 422 itself, or hands the
    validated value to the route handler. *)
Definition validateUserData (body : json) (next : obj -> handler) : handler :=
  match validate body with
  | Invalid errors =>
      fun d => ({| status := 422; body := ValidationFailed errors |}, d)
  | Valid value => next value
  end.

(** The object literal of the create handler:
    [{ id, ...validatedData, createdAt, updatedAt }]. *)
Definition new_user (id : string) (validatedData : obj)
    (createdAt updatedAt : string) : obj :=
  Obj.set "updatedAt" (JStr updatedAt)
    (Obj.set "createdAt" (JStr createdAt)
       (Obj.spread [("id", JStr id)] validatedData)).

(** [POST /v1/users], lines 153-176.  [id] is the value of
    [generateUserId()], [t1] and [t2] the values of the two calls of
    [new Date().toISOString()]. *)
Definition create_user (id t1 t2 : string) (body : json) : handler :=
  validateUserData body (fun validatedData =>
    guarded
      (users <- readUsersFile ;;
       let newUser := JObj (new_user id validatedData t1 t2) in
       let users := users ++ [newUser] in
       writeUsersFile users ;;;
       ret {| status := 201; body := Success newUser |})
      create_failed).

(** The object literal of both update handlers:
    [{ ...users[userIndex], ...data, updatedAt }]. *)
Definition updated_user (existing : json) (data : obj) (updatedAt : string)
  : obj :=
  Obj.set "updatedAt" (JStr updatedAt) (Obj.spread (props existing) data).

(** The body shared by the update handlers once the record is located. *)
Definition replace_user (users : list json) (userIndex : nat) (data : obj)
    (now : string) : IO response :=
  let updatedUser :=
    JObj (updated_user (nth userIndex users JNull) data now) in
  let users := store_at userIndex updatedUser users in
  writeUsersFile users ;;;
  ret (json_ok (Success updatedUser)).

(** [PUT /v1/users/:id], lines 178-209. *)
Definition update_user (id now : string) (body : json) : handler :=
  validateUserData body (fun validatedData =>
    guarded
      (users <- readUsersFile ;;
       userIndex <- lift (findIndex (id_is id) users) ;;
       match userIndex with
       | None => ret not_found
       | Some i => replace_user users i validatedData now
       end)
      update_failed).

(** [PATCH /v1/users/:id], lines 211-254: the request body itself is
    validated, and the request body itself is merged. *)
Definition patch_user (id now : string) (body : json) : handler :=
  guarded
    (users <- readUsersFile ;;
     userIndex <- lift (findIndex (id_is id) users) ;;
     match userIndex with
     | None => ret not_found
     | Some i =>
         match validate body with
         | Invalid errors =>
             ret {| status := 422; body := ValidationFailed errors |}
         | Valid _ => replace_user users i (props body) now
         end
     end)
    patch_failed.

End Handlers.

(** [DELETE /v1/users/:id], lines 256-282. *)
Definition delete_user (id : string) : handler :=
  guarded
    (users <- readUsersFile ;;
     userIndex <- lift (findIndex (id_is id) users) ;;
     match userIndex with
     | None => ret not_found
     | Some i =>
         let deletedUser := nth i users JNull in
         let users := splice_out i users in
         writeUsersFile users ;;;
         ret (json_ok (SuccessNote deletedUser user_deleted))
     end)
    delete_failed.

(** ** The router *)

(** A request as the middleware and the router sort it.  [Malformed] is a
    request that Express fails before any route runs, on whatever path:
    [express.json()] cannot parse its body, or a path parameter cannot be
    decoded.  A request that passes is one to the six routes, with the
    query parameters and the body that Express parsed, or is [Unmatched]. *)
Inductive request :=
| GetUsers (q city isActive : option param)
| GetUser (id : string)
| PostUser (body : json)
| PutUser (id : string) (body : json)
| PatchUser (id : string) (body : json)
| DeleteUser (id : string)
| Unmatched
| Malformed.

(** What the environment hands to a request: the identifier that
    [uuidv4()] returns and two successive readings of the clock. *)
Record ambient := { uuid : string; clock1 : string; clock2 : string }.

Definition serve {lib : JoiLib} (a : ambient) (r : request) : handler :=
  match r with
  | GetUsers q city isActive => list_query q city isActive
  | GetUser id => get_user id
  | PostUser body => create_user (uuid a) (clock1 a) (clock2 a) body
  | PutUser id body => update_user id (clock1 a) body
  | PatchUser id body => patch_user id (clock1 a) body
  | DeleteUser id => delete_user id
  | Unmatched =>                                        (* lines 285-290 *)
      fun d => ({| status := 404; body := Failure resource_not_found |}, d)
  | Malformed =>                                        (* lines 293-299 *)
      fun d => ({| status := 500; body := Failure internal_error |}, d)
  end.

(** The requests served one after the other. *)
Definition serve_all {lib : JoiLib} (rs : list (ambient * request)) (d : disk)
  : disk :=
  fold_left (fun d ar => snd (serve (fst ar) (snd ar) d)) rs d.

(** ** A concrete validation library for the examples

    An address is accepted when it has an at-sign; a string of decimal
    digits parses to the natural number it writes. *)

Fixpoint digits_value (acc : nat) (s : string) : option nat :=
  match s with
  | EmptyString => Some acc
  | String c s' =>
      let n := nat_of_ascii c in
      if (48 <=? n) && (n <=? 57)
      then digits_value (10 * acc + (n - 48)) s'
      else None
  end.

Definition sample_lib : JoiLib := {|
  isEmail := fun s => includes s "@";
  numberFromString := fun s =>
    match s with
    | EmptyString => NotNumeric
    | _ => match digits_value 0 s with
           | Some n => Parsed (Fin (Z.of_nat n # 1))
           | None => NotNumeric
           end
    end
|}.

(** A readable and writable file that holds [users]. *)
Definition stored (users : list json) : disk :=
  {| users_json := Holds (Encoded users); write_error := None |}.


(** Identifiers as [uuidv4()] writes them. *)
Definition id_ann : string := "7c9e6679-7425-40de-944b-e07fc1f90ae7".
Definition id_bob : string := "16fd2706-8baf-433b-82eb-8c7fada847da".
Definition id_new : string := "3b241101-e2bb-4255-8caf-4136c566a962".

(** A stored record with a city, and request bodies used in the examples. *)
Definition paris_record : json :=
  JObj [("id", JStr id_ann); ("firstName", JStr "Ann"); ("lastName", JStr "Lee");
        ("age", JNum (Fin (30 # 1))); ("email", JStr "a@b.com");
        ("city", JStr "Paris"); ("hobbies", JArr []); ("isActive", JBool true);
        ("createdAt", JStr "2024-01-01T00:00:00.000Z");
        ("updatedAt", JStr "2024-01-01T00:00:00.000Z")].

Definition ann_fields : obj :=
  [("firstName", JStr "Ann"); ("lastName", JStr "Lee");
   ("age", JNum (Fin (30 # 1))); ("email", JStr "a@b.com")].

Definition ann_validated : obj :=
  ann_fields ++ [("hobbies", JArr []); ("isActive", JBool true)].

Definition ann_with_nickname : obj := ann_fields ++ [("nickname", JStr "Annie")].

Definition ann_with_bad_hobbies : obj :=
  ann_fields ++ [("hobbies", JArr [JNum (Fin (1 # 1)); JNum (Fin (2 # 1))])].

(** The answer of the list handler carrying the sequence [l]. *)
Definition listing (l : list json) : response :=
  json_ok (SuccessList l (List.length l) (List.length l)).

Definition berlin_record : json :=
  JObj [("id", JStr id_bob); ("firstName", JStr "Bob"); ("lastName", JStr "Ray");
        ("age", JNum (Fin (41 # 1))); ("email", JStr "b@c.org");
        ("city", JStr "Berlin"); ("hobbies", JArr [JStr "chess"]);
        ("isActive", JBool false);
        ("createdAt", JStr "2024-02-01T00:00:00.000Z");
        ("updatedAt", JStr "2024-02-01T00:00:00.000Z")].

(** ** Notions used to state the properties *)

Section Readings.

Context {lib : JoiLib}.

(** The field [k] of the body [o] as the validation reads it. *)
Definition body_field (k : string) (o : obj) : option json :=
  read k (prototype o) (assigned o).

(** The errors that the schema key [c] contributes for the body [o]. *)
Definition child_errors (c : child) (o : obj) : list error_entry :=
  snd (validate_child c (body_field (name c) o)).

(** A field is violated when its own check reports something. *)
Definition violated (c : child) (o : obj) : bool :=
  match child_errors c o with
  | [] => false
  | _ => true
  end.

(** The write-back of the result of key [c] into the validated value. *)
Definition write_back (o : obj) (value : obj) (c : child) : obj :=
  match fst (validate_child c (body_field (name c) o)) with
  | Some x => Obj.set (name c) x value
  | None => value
  end.

End Readings.

(** A list of errors that is empty or is one entry for the key [k]. *)
Definition at_most_one (k : key) (errs : list error_entry) : Prop :=
  errs = [] \/ exists code, errs = [{| field := Some k; message := code |}].

(** What [Joi.string()] reports for one element of [hobbies]. *)
Definition hobby_code (item : json) : option joi_code :=
  match item with
  | JStr EmptyString => Some string_empty
  | JStr _ => None
  | _ => Some string_base
  end.

(** One entry per offending element, labelled with the element's index. *)
Fixpoint hobby_errors (i : nat) (l : list json) : list error_entry :=
  match l with
  | [] => []
  | item :: l' =>
      match hobby_code item with
      | Some c => [{| field := Some (KIndex i); message := c |}]
      | None => []
      end ++ hobby_errors (S i) l'
  end.

(** The keys a stored record gets from the handlers besides the schema's. *)
Definition is_stamp (k : string) : bool :=
  String.eqb k "id" || String.eqb k "createdAt" || String.eqb k "updatedAt".

(** The identifier of a stored record. *)
Definition record_id (u : json) : option string :=
  match u with
  | JObj o =>
      match Obj.get "id" o with
      | Some (JStr s) => Some s
      | _ => None
      end
  | _ => None
  end.

Definition has_id (id : string) (u : json) : bool :=
  match record_id u with
  | Some s => String.eqb s id
  | None => false
  end.

Definition is_record (u : json) : bool :=
  match u with
  | JObj _ => true
  | _ => false
  end.

(** A stored record as the data model has it, as far as the list filters
    look: an object whose [firstName] and [lastName] are strings and whose
    [city], when present, is a string. *)
Definition user_record (u : json) : bool :=
  match u with
  | JObj o =>
      match Obj.get "firstName" o, Obj.get "lastName" o, Obj.get "city" o with
      | Some (JStr _), Some (JStr _), (None | Some (JStr _)) => true
      | _, _, _ => false
      end
  | _ => false
  end.

(** The string held by a property, for properties that hold strings. *)
Definition string_at (k : string) (u : json) : string :=
  match Obj.get k (props u) with
  | Some (JStr s) => s
  | _ => EmptyString
  end.

(** The three filters as the handler computes them on a record. *)

(** [q]: the lower-cased first or last name includes the lower-cased
    query. *)
Definition name_matches (q : string) (u : json) : bool :=
  includes (toLowerCase (string_at "firstName" u)) (toLowerCase q) ||
  includes (toLowerCase (string_at "lastName" u)) (toLowerCase q).

(** [city]: the record has a city whose lower-cased text is the
    lower-cased parameter. *)
Definition city_matches (city : string) (u : json) : bool :=
  match Obj.get "city" (props u) with
  | Some (JStr c) => String.eqb (toLowerCase c) (toLowerCase city)
  | _ => false
  end.

(** The record's [isActive] is exactly the boolean [b]. *)
Definition active_is (b : bool) (u : json) : bool :=
  match Obj.get "isActive" (props u) with
  | Some (JBool b') => Bool.eqb b' b
  | _ => false
  end.

Definition when_supplied (param : option string) (p : string -> json -> bool)
    (u : json) : bool :=
  match supplied param with
  | Some v => p v u
  | None => true
  end.

(** The conjunction of the supplied filters; the [isActive] parameter
    stands for the boolean "is the text true". *)
Definition matches (q city isActive : option string) (u : json) : bool :=
  when_supplied q name_matches u &&
  when_supplied city city_matches u &&
  when_supplied isActive (fun v => active_is (String.eqb v "true")) u.

(** The filter that the handler applies for each parameter that is one
    text, and for [isActive] in any shape. *)
Definition kept_by_name (q : option param) (u : json) : bool :=
  match given q with
  | Some (Text s) => name_matches s u
  | _ => true
  end.

Definition kept_by_city (city : option param) (u : json) : bool :=
  match given city with
  | Some (Text c) => city_matches c u
  | _ => true
  end.

Definition kept_by_active (isActive : option param) (u : json) : bool :=
  match given isActive with
  | Some p => active_is (param_is_true p) u
  | None => true
  end.

(** The list filters as the specification words them, written without the
    string methods that the handler calls. *)

(** The letters of Latin-1 come in pairs, a capital and its small letter 32
    places further on: A-Z with a-z, and U+00C0-U+00DE with U+00E0-U+00FE,
    the two signs U+00D7 and U+00F7 apart. *)
Definition case_pair (capital small : nat) : bool :=
  (small =? capital + 32) &&
  (((65 <=? capital) && (capital <=? 90)) ||
   ((192 <=? capital) && (capital <=? 222) && negb (capital =? 215))).

(** Two code units that are the same letter, whatever the case. *)
Definition same_letter (a b : ascii) : bool :=
  let m := nat_of_ascii a in
  let n := nat_of_ascii b in
  (m =? n) || case_pair m n || case_pair n m.

(** Two texts that are equal up to letter case. *)
Fixpoint same_text (s t : string) : bool :=
  match s, t with
  | EmptyString, EmptyString => true
  | String a s', String b t' => same_letter a b && same_text s' t'
  | _, _ => false
  end.

(** [q] occurs in [s] up to letter case: a stretch of [s] is [q] up to
    case. *)
Definition occurs_in (q s : string) : Prop :=
  exists before stretch after : string,
    s = (before ++ stretch ++ after)%string /\ same_text stretch q = true.

Definition name_has (q : string) (u : json) : Prop :=
  occurs_in q (string_at "firstName" u) \/ occurs_in q (string_at "lastName" u).

Definition city_is (city : string) (u : json) : bool :=
  match Obj.get "city" (props u) with
  | Some (JStr c) => same_text c city
  | _ => false
  end.

Definition has_city (u : json) : bool :=
  match Obj.get "city" (props u) with
  | Some (JStr (String _ _)) => true
  | _ => false
  end.

(** A parameter that is absent or given once. *)
Definition one_text (p : option param) : bool :=
  match p with
  | None | Some (Text _) => true
  | Some _ => false
  end.

(** What the three parameters ask of a record: each one that is supplied,
    that is, present and not the empty text, must hold.  For [isActive] the
    text "true" asks for an active record and anything else for an inactive
    one. *)
Definition selected (q city isActive : option param) (u : json) : Prop :=
  (forall s, q = Some (Text s) -> s <> "" -> name_has s u) /\
  (forall c, city = Some (Text c) -> c <> "" -> city_is c u = true) /\
  (isActive = Some (Text "true") -> active_is true u = true) /\
  (forall p, isActive = Some p -> p <> Text "" -> p <> Text "true" ->
             active_is false u = true).

(** A request body as [JSON.parse] builds it: an object has no key twice. *)
Definition parsed_body (r : request) : bool :=
  match r with
  | PostUser (JObj o) | PutUser _ (JObj o) | PatchUser _ (JObj o) =>
      Obj.distinct_keys o
  | _ => true
  end.

(** The file, when it holds a sequence, holds user records. *)
Definition holds_records (d : disk) : Prop :=
  forall users,
    users_json d = Holds (Encoded users) -> forallb user_record users = true.

(** The file is not one on which a write is cut short. *)
Definition sturdy (d : disk) : bool :=
  match users_json d with
  | Fragile _ _ => false
  | _ => true
  end.

Definition kept (d : disk) : Prop := sturdy d = true /\ holds_records d.

(** ** Notions for the properties of the remaining behaviour *)

Section Acceptance.

Context {lib : JoiLib}.

(** A string whose length [.min(2).max(50)] accepts. *)
Definition name_ok (v : json) : bool :=
  match v with
  | JStr s => (2 <=? String.length s) && (String.length s <=? 50)
  | _ => false
  end.

(** A number that [.min(1).max(120)] accepts. *)
Definition in_range (x : number) : bool :=
  match x with
  | Fin q => Qle_bool (1 # 1) q && Qle_bool q (120 # 1)
  | _ => false
  end.

(** An age: a number in range, or a string that converts to one. *)
Definition age_ok (v : json) : bool :=
  match v with
  | JNum x => in_range x
  | JStr s =>
      match numberFromString s with
      | Parsed x => in_range x
      | _ => false
      end
  | _ => false
  end.

Definition email_ok (v : json) : bool :=
  match v with
  | JStr EmptyString => false
  | JStr s => isEmail s
  | _ => false
  end.

Definition hobby_ok (item : json) : bool :=
  match hobby_code item with
  | Some _ => false
  | None => true
  end.

Definition hobbies_ok (v : json) : bool :=
  match v with
  | JArr l => forallb hobby_ok l
  | _ => false
  end.

(** A boolean, or the text "true" / "false" in any letter case. *)
Definition flag_ok (v : json) : bool :=
  match v with
  | JBool _ => true
  | JStr s =>
      String.eqb (toLowerCase s) "true" || String.eqb (toLowerCase s) "false"
  | _ => false
  end.

Definition present (p : json -> bool) (v : option json) : bool :=
  match v with
  | Some x => p x
  | None => false
  end.

Definition optional (p : json -> bool) (v : option json) : bool :=
  match v with
  | Some x => p x
  | None => true
  end.

(** The object bodies that the schema lets through, read off [userSchema]
    key by key: the own keys other than [__proto__] are schema keys, and
    each field, as the validation reads it, is as its key asks. *)
Definition accepts (o : obj) : bool :=
  forallb (is_schema_key userSchema) (Obj.keys (assigned o)) &&
  present name_ok (body_field "firstName" o) &&
  present name_ok (body_field "lastName" o) &&
  present age_ok (body_field "age" o) &&
  present email_ok (body_field "email" o) &&
  optional name_ok (body_field "city" o) &&
  optional hobbies_ok (body_field "hobbies" o) &&
  optional flag_ok (body_field "isActive" o).

(** A validated value as the data model describes a record's own fields:
    the age is a number in range, [hobbies] and [isActive] are there, the
    latter a boolean. *)
Definition number_in_range (v : json) : bool :=
  match v with
  | JNum x => in_range x
  | _ => false
  end.

Definition is_boolean (v : json) : bool :=
  match v with
  | JBool _ => true
  | _ => false
  end.

Definition normal (value : obj) : bool :=
  forallb (is_schema_key userSchema) (Obj.keys value) &&
  present name_ok (Obj.get "firstName" value) &&
  present name_ok (Obj.get "lastName" value) &&
  present number_in_range (Obj.get "age" value) &&
  present email_ok (Obj.get "email" value) &&
  optional name_ok (Obj.get "city" value) &&
  present hobbies_ok (Obj.get "hobbies" value) &&
  present is_boolean (Obj.get "isActive" value).

End Acceptance.

(** A body that writes the age and the flag as text. *)
Definition ann_texts : obj :=
  [("firstName", JStr "Ann"); ("lastName", JStr "Lee"); ("age", JStr "30");
   ("email", JStr "a@b.com"); ("isActive", JStr "TRUE")].

Definition ann_texts_validated : obj :=
  [("firstName", JStr "Ann"); ("lastName", JStr "Lee");
   ("age", JNum (Fin (30 # 1))); ("email", JStr "a@b.com");
   ("isActive", JBool true); ("hobbies", JArr [])].

(** A create followed by a partial update of the created record. *)
Definition sample_session : list (ambient * request) :=
  [({| uuid := id_new; clock1 := "2024-06-30T12:00:00.000Z";
       clock2 := "2024-06-30T12:00:00.001Z" |},
    PostUser (JObj ann_texts));
   ({| uuid := id_bob; clock1 := "2024-06-30T12:00:05.000Z";
       clock2 := "2024-06-30T12:00:05.000Z" |},
    PatchUser id_new (JObj ann_fields))].

(** The status codes that the handler of each route can send. *)
Definition codes (r : request) : list nat :=
  match r with
  | GetUsers _ _ _ => [200; 500]
  | GetUser _ | DeleteUser _ => [200; 404; 500]
  | PostUser _ => [201; 422; 500]
  | PutUser _ _ | PatchUser _ _ => [200; 404; 422; 500]
  | Unmatched => [404]
  | Malformed => [500]
  end.

(** An answer with a status code of its route that, unless the code is 200
    or 201, comes with the file as it was or as the initialising read left
    it, or else is a 500 that comes with a fragile file cut short. *)
Definition answer_ok (r : request) (d : disk) (out : response * disk) : Prop :=
  In (status (fst out)) (codes r) /\
  (status (fst out) = 200 \/ status (fst out) = 201 \/
   snd out = d \/ snd out = snd (readUsersFile d) \/
   (status (fst out) = 500 /\
    exists t c,
      users_json d = Fragile t c /\
      snd out = {| users_json := Fragile Garbage c; write_error := None |})).

(** A value with no infinite number in it.  These are the values that
    [JSON.stringify] writes, and [res.json] sends, as they are; an infinity
    would be written as [null]. *)
Fixpoint finite (v : json) : bool :=
  match v with
  | JNum (Fin _) => true
  | JNum _ => false
  | JArr l => forallb finite l
  | JObj o => forallb (fun kv => finite (snd kv)) o
  | _ => true
  end.

(** The identifiers carried by the stored records, in order. *)
Definition ids (users : list json) : list string :=
  flat_map (fun u => match record_id u with
                     | Some s => [s]
                     | None => []
                     end) users.

(** The identifier that a request writes under: the generated one for a
    create, the path parameter for an update or a delete. *)
Definition target (a : ambient) (r : request) : option string :=
  match r with
  | PostUser _ => Some (uuid a)
  | PutUser id _ | PatchUser id _ | DeleteUser id => Some id
  | _ => None
  end.

(** What one request can do to the stored collection: nothing, append a
    record that carries the generated id, put a record that carries the
    path id in the place of the first one that does, or take that one out. *)
Inductive effect (a : ambient) : request -> list json -> list json -> Prop :=
| Unchanged r users : effect a r users users
| Appended body users rec :
    Obj.get "id" rec = Some (JStr (uuid a)) ->
    effect a (PostUser body) users (users ++ [JObj rec])
| ReplacedByPut id body users i rec :
    findIndex (id_is id) users = Return (Some i) ->
    Obj.get "id" rec = Some (JStr id) ->
    effect a (PutUser id body) users (store_at i (JObj rec) users)
| ReplacedByPatch id body users i rec :
    findIndex (id_is id) users = Return (Some i) ->
    Obj.get "id" rec = Some (JStr id) ->
    effect a (PatchUser id body) users (store_at i (JObj rec) users)
| Removed id users i :
    findIndex (id_is id) users = Return (Some i) ->
    effect a (DeleteUser id) users (splice_out i users).

(** The file holds [users] and takes writes when [w] is [None]; opening it
    for a write fails with the code [c] when [w] is [Some c]. *)
Definition holding (users : list json) (w : option string) : disk :=
  {| users_json := Holds (Encoded users); write_error := w |}.

(** * Properties *)

(** ** Objects *)

Module ObjFacts.
Import Obj.

Lemma get_set_same k v o : get k (set k v o) = Some v.
Proof.
  induction o as [|[k' v'] o IH]; simpl.
  - now rewrite String.eqb_refl.
  - destruct (String.eqb k k') eqn:E; simpl; rewrite E; auto.
Qed.

Lemma get_set_other k k' v o : k <> k' -> get k (set k' v o) = get k o.
Proof.
  intros Hne. induction o as [|[k0 v0] o IH]; simpl.
  - apply String.eqb_neq in Hne. now rewrite Hne.
  - destruct (String.eqb k' k0) eqn:E; simpl.
    + apply String.eqb_eq in E. subst k0.
      apply String.eqb_neq in Hne. now rewrite Hne.
    + now rewrite IH.
Qed.

Lemma set_same_value k v o : get k o = Some v -> set k v o = o.
Proof.
  induction o as [|[k' v'] o IH]; simpl; [discriminate|].
  destruct (String.eqb k k'); intros H.
  - now inversion H.
  - now rewrite IH.
Qed.

Lemma set_set k v1 v2 o : set k v2 (set k v1 o) = set k v2 o.
Proof.
  induction o as [|[k' v'] o IH]; simpl.
  - now rewrite String.eqb_refl.
  - destruct (String.eqb k k') eqn:E; simpl; rewrite E; [reflexivity|].
    now rewrite IH.
Qed.

Lemma has_In k ks : existsb (String.eqb k) ks = true <-> In k ks.
Proof.
  rewrite existsb_exists. split.
  - intros [x [Hin Heq]]. apply String.eqb_eq in Heq. now subst.
  - intros Hin. exists k. split; [assumption | apply String.eqb_refl].
Qed.

Lemma keys_set k v o :
  keys (set k v o) = if has k o then keys o else keys o ++ [k].
Proof.
  unfold has, keys. induction o as [|[k' v'] o IH]; simpl; [reflexivity|].
  destruct (String.eqb k k') eqn:E; simpl; [reflexivity|].
  rewrite IH. now destruct (existsb (String.eqb k) (map fst o)).
Qed.

Lemma in_keys_set k k' v o :
  In k (keys (set k' v o)) <-> k = k' \/ In k (keys o).
Proof.
  rewrite keys_set. destruct (has k' o) eqn:H.
  - apply has_In in H. split; [tauto|]. intros [->|]; assumption.
  - rewrite in_app_iff. simpl. split; intros; intuition congruence.
Qed.

Lemma get_none_iff k o : get k o = None <-> ~ In k (keys o).
Proof.
  induction o as [|[k' v'] o IH]; simpl; [tauto|].
  destruct (String.eqb k k') eqn:E.
  - apply String.eqb_eq in E. subst. split; [discriminate | tauto].
  - apply String.eqb_neq in E. rewrite IH. split; intros; intuition congruence.
Qed.

Lemma distinct_NoDup ks : distinct ks = true <-> NoDup ks.
Proof.
  induction ks as [|k ks IH]; simpl.
  - split; [constructor | reflexivity].
  - rewrite andb_true_iff, negb_true_iff, IH. split.
    + intros [Hk Hd]. constructor; [|assumption].
      intro Hin. apply has_In in Hin. congruence.
    + intros Hnd. inversion Hnd; subst. split; [|assumption].
      destruct (existsb (String.eqb k) ks) eqn:E; [|reflexivity].
      apply has_In in E. contradiction.
Qed.

Lemma distinct_keys_set k v o :
  distinct_keys o = true -> distinct_keys (set k v o) = true.
Proof.
  unfold distinct_keys. rewrite !distinct_NoDup, keys_set.
  destruct (has k o) eqn:H; [tauto|]. intros Hnd.
  apply NoDup_app; [assumption | repeat constructor; simpl; tauto |].
  intros x Hx [<-|[]]. apply has_In in Hx. unfold has in H. congruence.
Qed.

Lemma get_spread_notin k o src :
  ~ In k (keys src) -> get k (spread o src) = get k o.
Proof.
  unfold spread. revert o.
  induction src as [|[k' v'] src IH]; intros o Hnin; simpl; [reflexivity|].
  simpl in Hnin. rewrite IH by tauto.
  apply get_set_other. intro; subst; tauto.
Qed.

Lemma get_spread_in k v o src :
  distinct_keys src = true -> get k src = Some v ->
  get k (spread o src) = Some v.
Proof.
  unfold spread, distinct_keys. rewrite distinct_NoDup. revert o.
  induction src as [|[k' v'] src IH]; intros o Hnd Hget; simpl in *;
    [discriminate|].
  inversion Hnd as [|? ? Hnin Hnd']; subst.
  destruct (String.eqb k k') eqn:E.
  - apply String.eqb_eq in E. subst k'. inversion Hget; subst.
    fold (spread (set k v o) src). rewrite get_spread_notin by assumption.
    apply get_set_same.
  - now apply IH.
Qed.

Lemma spread_same o src :
  (forall k v, In (k, v) src -> get k o = Some v) -> spread o src = o.
Proof.
  unfold spread. induction src as [|[k v] src IH]; intros H; simpl;
    [reflexivity|].
  rewrite set_same_value by (apply H; now left).
  apply IH. intros k' v' Hin. apply H. now right.
Qed.

Lemma In_get k v o :
  distinct_keys o = true -> In (k, v) o -> get k o = Some v.
Proof.
  unfold distinct_keys. rewrite distinct_NoDup.
  induction o as [|[k' v'] o IH]; simpl; [tauto|].
  intros Hnd [Heq|Hin]; inversion Hnd as [|? ? Hnin Hnd']; subst.
  - inversion Heq; subst. now rewrite String.eqb_refl.
  - destruct (String.eqb k k') eqn:E; [|now apply IH].
    apply String.eqb_eq in E. subst k'.
    exfalso. apply Hnin. change k with (fst (k, v)). now apply in_map.
Qed.

Lemma in_keys_spread k o src :
  In k (keys (spread o src)) <-> In k (keys o) \/ In k (keys src).
Proof.
  unfold spread. revert o.
  induction src as [|[k' v'] src IH]; intros o; simpl; [tauto|].
  rewrite IH, in_keys_set. intuition congruence.
Qed.

End ObjFacts.


(** ** Validation *)

Section ValidationFacts.
Context {lib : JoiLib}.
Import Obj ObjFacts.

(** The copy that the validation works on. *)
Lemma get_assigned k o :
  k <> "__proto__" -> get k (assigned o) = get k o.
Proof.
  intros Hne. unfold assigned. induction o as [|[k' v'] o IH]; simpl;
    [reflexivity|].
  destruct (String.eqb k' "__proto__") eqn:E; simpl.
  - apply String.eqb_eq in E. subst k'.
    apply String.eqb_neq in Hne. now rewrite Hne.
  - now rewrite IH.
Qed.

Lemma in_keys_assigned k o :
  In k (keys (assigned o)) <-> In k (keys o) /\ k <> "__proto__".
Proof.
  unfold assigned, keys. induction o as [|[k' v'] o IH]; simpl; [tauto|].
  destruct (String.eqb k' "__proto__") eqn:E; simpl; rewrite IH.
  - apply String.eqb_eq in E. subst k'. intuition congruence.
  - apply String.eqb_neq in E. intuition congruence.
Qed.

Lemma distinct_keys_assigned o :
  distinct_keys o = true -> distinct_keys (assigned o) = true.
Proof.
  unfold distinct_keys. rewrite !distinct_NoDup.
  induction o as [|[k v] o IH]; simpl; [trivial|].
  intros Hnd. inversion Hnd as [|? ? Hnin Hnd']; subst.
  destruct (String.eqb k "__proto__"); simpl; [now apply IH|].
  constructor; [|now apply IH].
  intros Hin. apply in_keys_assigned in Hin. tauto.
Qed.

(** A body without an own [__proto__] key is its own copy. *)
Lemma assigned_plain o : get "__proto__" o = None -> assigned o = o.
Proof.
  unfold assigned. induction o as [|[k v] o IH]; [reflexivity|].
  cbn [get filter fst]. rewrite (String.eqb_sym "__proto__" k).
  destruct (String.eqb k "__proto__"); cbn [negb]; [discriminate|].
  intros H. now rewrite IH.
Qed.

Lemma body_field_plain k o :
  get "__proto__" o = None -> body_field k o = get k o.
Proof.
  intros H. unfold body_field, read, prototype.
  rewrite (assigned_plain o H), H. simpl. now destruct (get k o).
Qed.

Lemma validate_keys_from children o value errors :
  NoDup (map name children) ->
  (forall c, In c children ->
             read (name c) (prototype o) value = body_field (name c) o) ->
  fold_left
      (fun (acc : obj * list error_entry) (c : child) =>
         let (value, errors) := acc in
         let (v, errs) :=
           validate_child c (read (name c) (prototype o) value) in
         (match v with
          | Some x => Obj.set (name c) x value
          | None => value
          end, errors ++ errs))
      children (value, errors)
  = (fold_left (write_back o) children value,
     errors ++ flat_map (fun c => child_errors c o) children).
Proof.
  revert value errors.
  induction children as [|c cs IH]; intros value errors Hnd Hsame; simpl.
  - now rewrite app_nil_r.
  - inversion Hnd as [|? ? Hnin Hnd']; subst.
    rewrite (Hsame c) by now left.
    unfold child_errors, write_back.
    destruct (validate_child c (body_field (name c) o)) as [v errs] eqn:E.
    simpl.
    rewrite IH; [now rewrite app_assoc | assumption |].
    intros c' Hin. rewrite <- (Hsame c') by now right.
    destruct v; [|reflexivity].
    unfold read. rewrite get_set_other; [reflexivity|].
    intro Heq. apply Hnin. rewrite <- Heq. now apply in_map.
Qed.

Lemma validate_keys_spec children o :
  NoDup (map name children) ->
  validate_keys children (prototype o) (assigned o) =
  (fold_left (write_back o) children (assigned o),
   flat_map (fun c => child_errors c o) children).
Proof.
  intros Hnd. unfold validate_keys.
  now rewrite (validate_keys_from children o (assigned o) []).
Qed.

Lemma userSchema_names : NoDup (map name userSchema).
Proof. apply distinct_NoDup. reflexivity. Qed.

Lemma validated_keys children o value k :
  In k (keys (fold_left (write_back o) children value)) ->
  In k (keys value) \/ is_schema_key children k = true.
Proof.
  revert value.
  induction children as [|c cs IH]; intros value H; simpl in *; [now left|].
  apply IH in H. destruct H as [H|H]; [|right; now rewrite H, orb_true_r].
  unfold write_back in H.
  destruct (fst (validate_child c (body_field (name c) o))); [|now left].
  apply in_keys_set in H. destruct H as [->|H]; [right | now left].
  now rewrite String.eqb_refl.
Qed.

Lemma validated_distinct children o value :
  distinct_keys value = true ->
  distinct_keys (fold_left (write_back o) children value) = true.
Proof.
  revert value.
  induction children as [|c cs IH]; intros value H; simpl; [assumption|].
  apply IH. unfold write_back.
  destruct (fst (validate_child c (body_field (name c) o))); [|assumption].
  now apply distinct_keys_set.
Qed.

Lemma unknown_errors_nil children o :
  unknown_errors children o = [] ->
  forall k, In k (keys o) -> is_schema_key children k = true.
Proof.
  unfold unknown_errors. intros H k Hin.
  apply map_eq_nil in H.
  destruct (is_schema_key children k) eqn:E; [reflexivity|].
  assert (Hf : In k (filter (fun k => negb (is_schema_key children k)) (keys o))).
  { apply filter_In. split; [assumption | now rewrite E]. }
  rewrite H in Hf. destruct Hf.
Qed.

(** What a successful validation says about the body. *)
Lemma validate_Valid body value :
  validate body = Valid value ->
  exists o, body = JObj o /\
            value = fold_left (write_back o) userSchema (assigned o) /\
            flat_map (fun c => child_errors c o) userSchema = [] /\
            unknown_errors userSchema (assigned o) = [].
Proof.
  unfold validate. destruct body; try discriminate.
  rewrite (validate_keys_spec userSchema o userSchema_names).
  destruct (_ ++ _) eqn:E; [|discriminate].
  intros H. inversion H; subst. apply app_eq_nil in E.
  exists o. tauto.
Qed.

Lemma validate_Invalid o details :
  validate (JObj o) = Invalid details ->
  details = flat_map (fun c => child_errors c o) userSchema ++
            unknown_errors userSchema (assigned o).
Proof.
  unfold validate.
  rewrite (validate_keys_spec userSchema o userSchema_names).
  destruct (_ ++ _) eqn:E; [discriminate|].
  intros H. now inversion H.
Qed.

Lemma valid_schema_keys body value k :
  validate body = Valid value -> In k (keys value) ->
  is_schema_key userSchema k = true.
Proof.
  intros H Hin. apply validate_Valid in H.
  destruct H as (o & -> & -> & _ & Hunk).
  apply validated_keys in Hin. destruct Hin as [Hin|]; [|assumption].
  eapply unknown_errors_nil; eassumption.
Qed.

Lemma valid_distinct o value :
  distinct_keys o = true -> validate (JObj o) = Valid value ->
  distinct_keys value = true.
Proof.
  intros Hd H. apply validate_Valid in H.
  destruct H as (o' & Heq & -> & _). inversion Heq; subst.
  apply validated_distinct. now apply distinct_keys_assigned.
Qed.

End ValidationFacts.

(** ** One entry per violated scalar field, one per offending hobby *)

Section ErrorCounts.
Context {lib : JoiLib}.
Import Obj ObjFacts.

Lemma at_key_short k codes :
  List.length codes <= 1 -> at_most_one k (at_key k codes).
Proof.
  destruct codes as [|c [|c' codes]]; simpl; intros H.
  - now left.
  - right. now exists c.
  - lia.
Qed.

Lemma string_length_rules s lo hi :
  lo <= hi ->
  List.length (flat_map (string_rule_fails s) [SMin lo; SMax hi]) <= 1.
Proof.
  intros H. cbn [flat_map string_rule_fails].
  destruct (Nat.leb_spec lo (String.length s)),
           (Nat.leb_spec (String.length s) hi); simpl; lia.
Qed.

Lemma string_email_rule s :
  List.length (flat_map (string_rule_fails s) [SEmail]) <= 1.
Proof. cbn [flat_map string_rule_fails]. destruct (isEmail s); simpl; lia. Qed.

Lemma number_range_rules q lo hi :
  Qle_bool lo hi = true ->
  List.length (flat_map (number_rule_fails q) [NMin lo; NMax hi]) <= 1.
Proof.
  intros H. cbn [flat_map number_rule_fails].
  destruct (Qle_bool lo q) eqn:E1, (Qle_bool q hi) eqn:E2; simpl; try lia.
  exfalso. apply Qle_bool_iff in H.
  assert (H1 : ~ (lo <= q)%Q) by (rewrite <- Qle_bool_iff; congruence).
  assert (H2 : ~ (q <= hi)%Q) by (rewrite <- Qle_bool_iff; congruence).
  apply Qnot_le_lt in H1, H2.
  apply (Qlt_irrefl q).
  eapply Qlt_trans; [exact H1|]. eapply Qle_lt_trans; eassumption.
Qed.

Lemma number_fails_short x lo hi :
  Qle_bool lo hi = true ->
  List.length (number_fails [NMin lo; NMax hi] x) <= 1.
Proof.
  intros H. destruct x; simpl; try lia.
  destruct (_ || _); [simpl; lia | now apply number_range_rules].
Qed.

Lemma string_value_short k v rules :
  (forall s, List.length (flat_map (string_rule_fails s) rules) <= 1) ->
  at_most_one k (snd (validate_value (JoiString rules) k v)).
Proof.
  intros H. destruct v as [| | |s| |]; cbn [validate_value snd];
    try (apply at_key_short; simpl; lia).
  destruct s; apply at_key_short; [simpl; lia | apply H].
Qed.

Lemma number_value_short k v lo hi :
  Qle_bool lo hi = true ->
  at_most_one k (snd (validate_value (JoiNumber [NMin lo; NMax hi]) k v)).
Proof.
  intros H. destruct v as [| |x|s| |]; cbn [validate_value snd];
    try (apply at_key_short; simpl; lia).
  - apply at_key_short. now apply number_fails_short.
  - destruct (numberFromString s); cbn [snd]; apply at_key_short;
      try (simpl; lia). now apply number_fails_short.
Qed.

Lemma boolean_value_short k v :
  at_most_one k (snd (validate_value JoiBoolean k v)).
Proof.
  destruct v as [| | |s| |]; cbn [validate_value snd];
    try (apply at_key_short; simpl; lia); try now left.
  destruct (String.eqb _ "true"); [now left|].
  destruct (String.eqb _ "false"); [now left|].
  apply at_key_short; simpl; lia.
Qed.

Lemma child_short (c : child) (item : option json) :
  (forall v, at_most_one (KName (name c))
               (snd (validate_value (type c) (KName (name c)) v))) ->
  at_most_one (KName (name c)) (snd (validate_child c item)).
Proof.
  intros H. unfold validate_child. destruct item as [v|].
  - specialize (H v). destruct (validate_value _ _ v). exact H.
  - destruct (required c); [right; now exists any_required | now left].
Qed.

(** Every schema key other than [hobbies] reports at most one error. *)
Lemma scalar_field_errors c o :
  In c userSchema -> name c <> "hobbies" ->
  at_most_one (KName (name c)) (child_errors c o).
Proof.
  intros Hin Hne. unfold child_errors. simpl in Hin.
  destruct Hin as [<-|[<-|[<-|[<-|[<-|[<-|[<-|[]]]]]]]];
    try (exfalso; now apply Hne);
    apply child_short; intros; cbn [type name];
    first [ apply string_value_short; intros;
            first [ now apply string_length_rules; lia
                  | apply string_email_rule ]
          | now apply number_value_short
          | apply boolean_value_short ].
Qed.

Lemma validate_item k item :
  validate_value (JoiString []) k item =
  (item, match hobby_code item with
         | Some c => [{| field := Some k; message := c |}]
         | None => []
         end).
Proof. destruct item as [| | |s| |]; try reflexivity. now destruct s. Qed.

Lemma validate_items_strings i l :
  validate_items (validate_value (JoiString [])) i l = (l, hobby_errors i l).
Proof.
  revert i. induction l as [|item l IH]; intros i; [reflexivity|].
  cbn [validate_items hobby_errors]. now rewrite validate_item, IH.
Qed.

(** The [hobbies] key: nothing when absent, one error when it is not an
    array, one error per offending element otherwise. *)
Lemma hobbies_errors c o :
  In c userSchema -> name c = "hobbies" ->
  child_errors c o =
  match body_field "hobbies" o with
  | None => []
  | Some (JArr l) => hobby_errors 0 l
  | Some _ => [{| field := Some (KName "hobbies"); message := array_base |}]
  end.
Proof.
  intros Hin Hname. unfold child_errors. simpl in Hin.
  destruct Hin as [<-|[<-|[<-|[<-|[<-|[<-|[<-|[]]]]]]]];
    try discriminate Hname.
  cbn [name]. unfold validate_child. cbn [type name required default].
  destruct (body_field "hobbies" o) as [v|]; [|reflexivity].
  destruct v; try reflexivity.
  cbn [validate_value]. now rewrite validate_items_strings.
Qed.

End ErrorCounts.

(** ** Arrays *)

Section ArrayFacts.

Variable p : json -> outcome bool.

Lemma find_none_app l1 l2 :
  find p l1 = Return None -> find p (l1 ++ l2) = find p l2.
Proof.
  induction l1 as [|u l1 IH]; simpl; [reflexivity|].
  destruct (p u) as [[|]|]; simpl; try discriminate. exact IH.
Qed.

Lemma find_all_false l :
  Forall (fun v => p v = Return false) l -> find p l = Return None.
Proof.
  induction 1 as [|u l Hu _ IH]; simpl; [reflexivity|]. now rewrite Hu.
Qed.

Lemma findIndex_at l1 u l2 :
  Forall (fun v => p v = Return false) l1 -> p u = Return true ->
  findIndex p (l1 ++ u :: l2) = Return (Some (List.length l1)).
Proof.
  intros Hl1 Hu. induction Hl1 as [|v l1 Hv _ IH]; simpl.
  - now rewrite Hu.
  - rewrite Hv. simpl. now rewrite IH.
Qed.

Lemma findIndex_split l i :
  findIndex p l = Return (Some i) ->
  exists l1 u l2,
    l = l1 ++ u :: l2 /\ List.length l1 = i /\ p u = Return true /\
    Forall (fun v => p v = Return false) l1.
Proof.
  revert i. induction l as [|v l IH]; intros i; simpl; [discriminate|].
  destruct (p v) as [[|]|] eqn:Hv; simpl; try discriminate.
  - intros H. inversion H; subst. exists [], v, l. auto.
  - destruct (findIndex p l) as [[j|]|] eqn:Hj; simpl; try discriminate.
    intros H. inversion H; subst.
    destruct (IH j eq_refl) as (l1 & u & l2 & -> & <- & Hu & Hl1).
    exists (v :: l1), u, l2. auto.
Qed.

End ArrayFacts.

Lemma nth_at (l1 : list json) u l2 : nth (List.length l1) (l1 ++ u :: l2) JNull = u.
Proof. induction l1; simpl; auto. Qed.

Lemma store_at_middle l1 u v l2 :
  store_at (List.length l1) v (l1 ++ u :: l2) = l1 ++ v :: l2.
Proof. induction l1; simpl; [reflexivity | now f_equal]. Qed.

Lemma splice_out_middle l1 u l2 :
  splice_out (List.length l1) (l1 ++ u :: l2) = l1 ++ l2.
Proof. induction l1; simpl; [reflexivity | now f_equal]. Qed.

(** A value that answers [true] to [u => u.id === id] is an object whose
    [id] is that string. *)
Lemma id_is_true id u :
  id_is id u = Return true ->
  exists o, u = JObj o /\ Obj.get "id" o = Some (JStr id).
Proof.
  unfold id_is. destruct u; simpl; try discriminate.
  destruct (Obj.get "id" o) as [[| | |s| |]|] eqn:G; simpl; try discriminate.
  intros H. injection H as E. apply String.eqb_eq in E. subst s.
  exists o. auto.
Qed.

Lemma id_is_object id o :
  id_is id (JObj o) = Return (strict_eq_string (Obj.get "id" o) id).
Proof. reflexivity. Qed.

Lemma id_is_record id u :
  is_record u = true -> id_is id u = Return (has_id id u).
Proof.
  destruct u; try discriminate. intros _. unfold has_id, record_id, id_is.
  cbn. now destruct (Obj.get "id" o) as [[| | |s| |]|].
Qed.

(** ** Running the storage helpers *)

Lemma readUsersFile_stored users :
  readUsersFile (stored users) = (Return users, stored users).
Proof. reflexivity. Qed.

Lemma writeUsersFile_stored users users' :
  writeUsersFile users' (stored users) = (Return tt, stored users').
Proof. reflexivity. Qed.

Section HandlerFacts.
Context {lib : JoiLib}.
Import Obj ObjFacts.

Lemma stamp_not_schema_key k :
  is_stamp k = true -> is_schema_key userSchema k = false.
Proof.
  unfold is_stamp. rewrite !orb_true_iff, !String.eqb_eq.
  intros [[->| ->]| ->]; reflexivity.
Qed.

Lemma valid_no_stamp body value k :
  validate body = Valid value -> is_stamp k = true -> ~ In k (keys value).
Proof.
  intros Hv Hs Hin. apply stamp_not_schema_key in Hs.
  rewrite (valid_schema_keys body value k Hv Hin) in Hs. discriminate.
Qed.

(** The record built by an update, read key by key. *)
Lemma updated_user_get existing data now k :
  distinct_keys data = true ->
  get k (updated_user existing data now) =
  if String.eqb k "updatedAt" then Some (JStr now)
  else match get k data with
       | Some v => Some v
       | None => get k (props existing)
       end.
Proof.
  intros Hd. unfold updated_user.
  destruct (String.eqb k "updatedAt") eqn:E.
  - apply String.eqb_eq in E. subst. apply get_set_same.
  - apply String.eqb_neq in E. rewrite get_set_other by assumption.
    destruct (get k data) as [v|] eqn:G.
    + now apply get_spread_in.
    + apply get_spread_notin. now apply get_none_iff.
Qed.

(** The update handler on a stored collection in which the record is
    located. *)
Lemma update_user_run id now body value users i :
  validate body = Valid value ->
  findIndex (id_is id) users = Return (Some i) ->
  let updated := JObj (updated_user (nth i users JNull) value now) in
  update_user id now body (stored users) =
  (json_ok (Success updated), stored (store_at i updated users)).
Proof.
  intros Hv Hf. unfold update_user, validateUserData. rewrite Hv.
  unfold guarded. cbn. unfold lift. rewrite Hf. reflexivity.
Qed.

(** The record that [findIndex] locates carries the id. *)
Lemma located_id id users i :
  findIndex (id_is id) users = Return (Some i) ->
  get "id" (props (nth i users JNull)) = Some (JStr id).
Proof.
  intros Hf. apply findIndex_split in Hf.
  destruct Hf as (l1 & u & l2 & -> & <- & Hu & _). rewrite nth_at.
  apply id_is_true in Hu. now destruct Hu as (ou & -> & Hget).
Qed.

(** A validated body has none of [id], [createdAt], [updatedAt], so the
    update leaves the first two as they are stored. *)
Lemma updated_user_keeps_stamp body value existing now k :
  validate body = Valid value -> distinct_keys value = true ->
  is_stamp k = true -> k <> "updatedAt" ->
  get k (updated_user existing value now) = get k (props existing).
Proof.
  intros Hv Hd Hk Hne. rewrite updated_user_get by assumption.
  apply String.eqb_neq in Hne. rewrite Hne.
  assert (Hnone : get k value = None).
  { apply get_none_iff. now apply (valid_no_stamp body). }
  now rewrite Hnone.
Qed.

(** Every field of the validated body is in the updated record. *)
Lemma updated_user_takes_body body value existing now k v :
  validate body = Valid value -> distinct_keys value = true ->
  get k value = Some v ->
  get k (updated_user existing value now) = Some v.
Proof.
  intros Hv Hd Hk. rewrite updated_user_get by assumption. rewrite Hk.
  destruct (String.eqb k "updatedAt") eqn:E; [|reflexivity].
  apply String.eqb_eq in E. subst k.
  assert (Hnone : get "updatedAt" value = None).
  { apply get_none_iff. now apply (valid_no_stamp body). }
  congruence.
Qed.

End HandlerFacts.

(** ** Full update *)

Section FullUpdate.
Context {lib : JoiLib}.
Import Obj ObjFacts.

(** C5, as the code has it.  For every PUT request with a valid body whose
    path id matches an existing record, the handler answers 200 and persists,
    in place of that record, the record merged with the validated body:
    [id] and [createdAt] are unchanged, [updatedAt] is the time of the
    request, every field of the validated body replaces the field of that
    name, and every other field of the existing record (the optional [city]
    when the body has none) is kept. *)
Theorem put_merges_validated_body :
  forall (id now : string) (o value : obj) (users : list json) (i : nat),
    distinct_keys o = true ->
    validate (JObj o) = Valid value ->
    findIndex (id_is id) users = Return (Some i) ->
    let existing := nth i users JNull in
    let updated := updated_user existing value now in
    update_user id now (JObj o) (stored users) =
      (json_ok (Success (JObj updated)),
       stored (store_at i (JObj updated) users)) /\
    get "id" updated = Some (JStr id) /\
    get "id" updated = get "id" (props existing) /\
    get "createdAt" updated = get "createdAt" (props existing) /\
    get "updatedAt" updated = Some (JStr now) /\
    (forall k v, get k value = Some v -> get k updated = Some v) /\
    (forall k, k <> "updatedAt" -> get k value = None ->
               get k updated = get k (props existing)).
Proof.
  intros id now o value users i Hd Hv Hf existing updated.
  pose proof (valid_distinct o value Hd Hv) as Hdv.
  assert (Hid : get "id" updated = get "id" (props existing)).
  { now apply (updated_user_keeps_stamp (JObj o)). }
  split; [now apply update_user_run|].
  split; [rewrite Hid; now apply located_id|].
  split; [exact Hid|].
  split; [now apply (updated_user_keeps_stamp (JObj o))|].
  split; [apply get_set_same|].
  split.
  - intros k v Hk. now apply (updated_user_takes_body (JObj o)).
  - intros k Hne Hk. unfold updated. rewrite updated_user_get by assumption.
    apply String.eqb_neq in Hne. now rewrite Hne, Hk.
Qed.

End FullUpdate.

Lemma put_merges_validated_body_witness :
  @update_user sample_lib id_ann "2024-06-30T12:00:00.000Z" (JObj ann_fields)
    (stored [paris_record]) =
  (json_ok (Success (JObj (updated_user paris_record ann_validated
                             "2024-06-30T12:00:00.000Z"))),
   stored [JObj (updated_user paris_record ann_validated
                   "2024-06-30T12:00:00.000Z")]).
Proof.
  exact (proj1 (@put_merges_validated_body sample_lib id_ann
                  "2024-06-30T12:00:00.000Z" ann_fields ann_validated
                  [paris_record] 0 eq_refl eq_refl eq_refl)).
Defined.

(** C5, the claim as worded fails: a PUT whose valid body has no [city]
    leaves the stored record's [city] in the updated record. *)
Lemma put_keeps_absent_city :
  Obj.get "city" ann_fields = None /\
  @validate sample_lib (JObj ann_fields) = Valid ann_validated /\
  Obj.get "city" ann_validated = None /\
  exists updated,
    @update_user sample_lib id_ann "2024-06-30T12:00:00.000Z" (JObj ann_fields)
      (stored [paris_record]) =
    (json_ok (Success (JObj updated)), stored [JObj updated]) /\
    Obj.get "city" updated = Some (JStr "Paris").
Proof.
  repeat split; try reflexivity.
  eexists. split; reflexivity.
Qed.

Lemma store_at_twice i v1 v2 l :
  store_at i v2 (store_at i v1 l) = store_at i v2 l.
Proof.
  revert i. induction l as [|u l IH]; intros [|i]; simpl; try reflexivity.
  now rewrite IH.
Qed.

Section Idempotence.
Context {lib : JoiLib}.
Import Obj ObjFacts.


End Idempotence.


(** ** Create *)

Section Create.
Context {lib : JoiLib}.
Import Obj ObjFacts.

Lemma create_user_run id t1 t2 body value users :
  validate body = Valid value ->
  let newUser := JObj (new_user id value t1 t2) in
  create_user id t1 t2 body (stored users) =
  ({| status := 201; body := Success newUser |}, stored (users ++ [newUser])).
Proof.
  intros Hv. unfold create_user, validateUserData. rewrite Hv. reflexivity.
Qed.

Lemma get_user_found id users u :
  find (id_is id) users = Return (Some u) ->
  get_user id (stored users) = (json_ok (Success u), stored users).
Proof.
  intros Hf. unfold get_user, guarded. cbn. unfold lift. rewrite Hf.
  assert (Hu : exists o, u = JObj o).
  { clear -Hf. induction users as [|v users IH]; simpl in Hf; [discriminate|].
    destruct (id_is id v) as [[|]|] eqn:Hv; simpl in Hf; try discriminate.
    - injection Hf as ->. apply id_is_true in Hv.
      destruct Hv as (o & -> & _). now exists o.
    - now apply IH. }
  destruct Hu as [o ->]. reflexivity.
Qed.

Lemma get_user_missing id users :
  find (id_is id) users = Return None ->
  get_user id (stored users) = (not_found, stored users).
Proof.
  intros Hf. unfold get_user, guarded. cbn. unfold lift. now rewrite Hf.
Qed.

Lemma new_user_id id value t1 t2 :
  get "id" value = None -> get "id" (new_user id value t1 t2) = Some (JStr id).
Proof.
  intros H. unfold new_user.
  rewrite !get_set_other by discriminate.
  rewrite get_spread_notin by now apply get_none_iff.
  reflexivity.
Qed.


End Create.



(** ** Rejected bodies *)

Section Rejection.
Context {lib : JoiLib}.
Import Obj ObjFacts.

Lemma validateUserData_invalid body details next d :
  validate body = Invalid details ->
  validateUserData body next d =
  ({| status := 422; body := ValidationFailed details |}, d).
Proof. intros H. unfold validateUserData. now rewrite H. Qed.

Lemma unknown_key_invalid o k :
  In k (keys o) -> k <> "__proto__" -> is_schema_key userSchema k = false ->
  exists details,
    validate (JObj o) = Invalid details /\
    In {| field := Some (KName k); message := object_unknown |} details.
Proof.
  intros Hin Hne Hk.
  assert (Hu : In {| field := Some (KName k); message := object_unknown |}
                  (unknown_errors userSchema (assigned o))).
  { unfold unknown_errors.
    apply (in_map (fun k => {| field := Some (KName k);
                               message := object_unknown |})).
    apply filter_In. split; [|now rewrite Hk].
    apply in_keys_assigned. now split. }
  unfold validate.
  destruct (validate_keys userSchema (prototype o) (assigned o))
    as [value errors].
  destruct (errors ++ unknown_errors userSchema (assigned o))
    as [|e details] eqn:E.
  - apply app_eq_nil in E. destruct E as [_ E]. rewrite E in Hu. destruct Hu.
  - exists (e :: details). split; [reflexivity|].
    rewrite <- E. apply in_or_app. now right.
Qed.

Lemma assigned_twice o : assigned (assigned o) = assigned o.
Proof.
  unfold assigned. induction o as [|[k v] o IH]; simpl; [reflexivity|].
  destruct (String.eqb k "__proto__") eqn:E; simpl; [assumption|].
  rewrite E. simpl. now rewrite IH.
Qed.

Lemma assigned_no_proto o : get "__proto__" (assigned o) = None.
Proof.
  apply get_none_iff. intros Hin. apply in_keys_assigned in Hin. tauto.
Qed.

(** An own [__proto__] key that does not hold an object plays no part in
    the validation. *)
Lemma validate_without_proto o :
  (forall p, get "__proto__" o <> Some (JObj p)) ->
  validate (JObj o) = validate (JObj (assigned o)).
Proof.
  intros Hp. unfold validate.
  assert (H1 : prototype o = []).
  { unfold prototype. destruct (get "__proto__" o) as [[| | | | |p]|];
      try reflexivity. now destruct (Hp p). }
  assert (H2 : prototype (assigned o) = []).
  { unfold prototype. now rewrite assigned_no_proto. }
  now rewrite H1, H2, assigned_twice.
Qed.

Lemma new_user_keys id value t1 t2 k :
  In k (keys (new_user id value t1 t2)) ->
  In k (keys value) \/ is_stamp k = true.
Proof.
  unfold new_user. rewrite !in_keys_set, in_keys_spread. simpl.
  intros [->|[->|[[<-|[]]|H]]]; auto.
Qed.

(** C2, as the code has it.  A create request whose body has a field
    outside the schema, other than [__proto__], is rejected: the answer is
    422 with a "not allowed" entry for that field and the persisted state is
    untouched.  An own [__proto__] key that does not hold an object is the
    one key that is passed over: the request is answered as if the key were
    not there.  Every record that the create handler builds has only schema
    fields besides [id], [createdAt] and [updatedAt]. *)
Theorem unknown_field_rejected :
  forall (id t1 t2 : string),
    (forall (o : obj) (k : string) (d : disk),
        In k (keys o) -> k <> "__proto__" ->
        is_schema_key userSchema k = false ->
        exists details,
          create_user id t1 t2 (JObj o) d =
            ({| status := 422; body := ValidationFailed details |}, d) /\
          In {| field := Some (KName k); message := object_unknown |} details) /\
    (forall (o : obj) (d : disk),
        (forall p, get "__proto__" o <> Some (JObj p)) ->
        create_user id t1 t2 (JObj o) d =
        create_user id t1 t2 (JObj (assigned o)) d) /\
    (forall (body : json) (value : obj) (k : string),
        validate body = Valid value ->
        In k (keys (new_user id value t1 t2)) ->
        is_schema_key userSchema k = true \/ is_stamp k = true).
Proof.
  intros id t1 t2. split; [|split].
  - intros o k d Hin Hne Hk.
    destruct (unknown_key_invalid o k Hin Hne Hk) as (details & Hv & Hd).
    exists details. split; [|assumption].
    unfold create_user. now apply validateUserData_invalid.
  - intros o d Hp. unfold create_user, validateUserData.
    now rewrite (validate_without_proto o Hp).
  - intros body value k Hv Hin. apply new_user_keys in Hin.
    destruct Hin as [Hin|Hs]; [left | now right].
    now apply (valid_schema_keys body value).
Qed.

(** C4, as the code has it.  A POST or PUT body that the schema rejects is
    answered 422 with the validation errors and leaves the persisted state
    untouched.  For an object body the errors are those of the schema keys,
    in schema order, followed by one entry per unknown own key other than
    [__proto__]; a violated key other than [hobbies] contributes exactly one
    entry, under its own name; [hobbies] contributes one entry when it is
    not an array and otherwise one entry per offending element, under the
    element's index. *)
Theorem invalid_body_rejected :
  forall (id t1 t2 now : string) (body : json) (details : list error_entry)
         (d : disk),
    validate body = Invalid details ->
    create_user id t1 t2 body d =
      ({| status := 422; body := ValidationFailed details |}, d) /\
    update_user id now body d =
      ({| status := 422; body := ValidationFailed details |}, d) /\
    (forall o, body = JObj o ->
       details = flat_map (fun c => child_errors c o) userSchema ++
                 unknown_errors userSchema (assigned o) /\
       (forall c, In c userSchema -> name c <> "hobbies" ->
                  violated c o = true ->
                  exists code,
                    child_errors c o =
                    [{| field := Some (KName (name c)); message := code |}]) /\
       (forall c, In c userSchema -> name c = "hobbies" ->
                  child_errors c o =
                  match body_field "hobbies" o with
                  | None => []
                  | Some (JArr l) => hobby_errors 0 l
                  | Some _ => [{| field := Some (KName "hobbies");
                                  message := array_base |}]
                  end)).
Proof.
  intros id t1 t2 now body details d Hv.
  split; [now apply validateUserData_invalid|].
  split; [now apply validateUserData_invalid|].
  intros o ->. split; [now apply validate_Invalid|]. split.
  - intros c Hin Hne Hviol.
    destruct (scalar_field_errors c o Hin Hne) as [E|E]; [|exact E].
    unfold violated in Hviol. rewrite E in Hviol. discriminate.
  - intros c Hin Hname. now apply hobbies_errors.
Qed.

(** C1, what the code does instead of validating the merged record: the
    partial-update handler validates the request body alone against the
    schema of create, so a body that supplies only [city] is answered 422
    with a "required" entry for each of the four required fields, and
    nothing is persisted, whatever the stored record holds. *)
Theorem patch_city_only_rejected :
  forall (id now city : string) (users : list json) (i : nat),
    findIndex (id_is id) users = Return (Some i) ->
    exists details,
      patch_user id now (JObj [("city", JStr city)]) (stored users) =
        ({| status := 422; body := ValidationFailed details |}, stored users) /\
      (forall k, In k ["firstName"; "lastName"; "age"; "email"] ->
         In {| field := Some (KName k); message := any_required |} details).
Proof.
  intros id now city users i Hf.
  unfold patch_user, guarded. cbn -[validate]. unfold lift. rewrite Hf.
  destruct (validate (JObj [("city", JStr city)])) as [value|details] eqn:Hv.
  - exfalso. apply validate_Valid in Hv.
    destruct Hv as (o & Ho & _ & He & _). injection Ho as <-.
    discriminate He.
  - exists details. split; [reflexivity|].
    apply validate_Invalid in Hv. subst details.
    intros k Hk. apply in_or_app. left. simpl in Hk.
    destruct Hk as [<-|[<-|[<-|[<-|[]]]]]; cbn; auto 6.
Qed.

End Rejection.

Lemma unknown_field_rejected_witness :
  exists details,
    @create_user sample_lib id_new "2024-06-30T12:00:00.000Z"
      "2024-06-30T12:00:00.000Z" (JObj ann_with_nickname) (stored []) =
    ({| status := 422; body := ValidationFailed details |}, stored []) /\
    In {| field := Some (KName "nickname"); message := object_unknown |} details.
Proof.
  apply (proj1 (@unknown_field_rejected sample_lib id_new
                  "2024-06-30T12:00:00.000Z" "2024-06-30T12:00:00.000Z")
           ann_with_nickname "nickname" (stored [])).
  - simpl. tauto.
  - discriminate.
  - reflexivity.
Defined.

(** C2, the claim as worded fails: a create body that satisfies every
    constraint and carries one extra field is not accepted with the field
    dropped; it is answered 422 and no record is persisted. *)
Lemma create_rejects_unknown_field :
  @validate sample_lib (JObj ann_fields) = Valid ann_validated /\
  @create_user sample_lib id_new "2024-06-30T12:00:00.000Z"
    "2024-06-30T12:00:00.000Z" (JObj ann_with_nickname) (stored []) =
  ({| status := 422;
      body := ValidationFailed
                [{| field := Some (KName "nickname");
                    message := object_unknown |}] |},
   stored []).
Proof. split; reflexivity. Qed.

Lemma invalid_body_rejected_witness :
  @create_user sample_lib id_new "2024-06-30T12:00:00.000Z"
    "2024-06-30T12:00:00.000Z" (JObj ann_with_bad_hobbies)
    (stored [paris_record]) =
  ({| status := 422;
      body := ValidationFailed (hobby_errors 0 [JNum (Fin (1 # 1));
                                                JNum (Fin (2 # 1))]) |},
   stored [paris_record]).
Proof.
  exact (proj1 (@invalid_body_rejected sample_lib id_new
                  "2024-06-30T12:00:00.000Z" "2024-06-30T12:00:00.000Z"
                  "2024-06-30T12:00:00.000Z" (JObj ann_with_bad_hobbies)
                  _ (stored [paris_record]) eq_refl)).
Defined.

(** C4, the claim as worded fails: a body whose only violated field is
    [hobbies], with two elements that are not strings, gets two error
    entries, and they are labelled 0 and 1 rather than [hobbies]. *)
Lemma two_entries_for_hobbies :
  (forall c, In c userSchema ->
             @violated sample_lib c ann_with_bad_hobbies = true ->
             name c = "hobbies") /\
  @update_user sample_lib id_ann "2024-06-30T12:00:00.000Z"
    (JObj ann_with_bad_hobbies) (stored [paris_record]) =
  ({| status := 422;
      body := ValidationFailed
                [{| field := Some (KIndex 0); message := string_base |};
                 {| field := Some (KIndex 1); message := string_base |}] |},
   stored [paris_record]).
Proof.
  split; [|reflexivity].
  intros c Hin. simpl in Hin.
  destruct Hin as [<-|[<-|[<-|[<-|[<-|[<-|[<-|[]]]]]]]];
    vm_compute; intros H; (reflexivity || discriminate H).
Qed.

Lemma patch_city_only_rejected_witness :
  exists details,
    @patch_user sample_lib id_ann "2024-06-30T12:00:00.000Z"
      (JObj [("city", JStr "Paris")]) (stored [paris_record]) =
    ({| status := 422; body := ValidationFailed details |},
     stored [paris_record]) /\
    (forall k, In k ["firstName"; "lastName"; "age"; "email"] ->
       In {| field := Some (KName k); message := any_required |} details).
Proof.
  exact (@patch_city_only_rejected sample_lib id_ann "2024-06-30T12:00:00.000Z"
           "Paris" [paris_record] 0 eq_refl).
Defined.

(** ** Listing *)

Lemma filterM_pure (p : json -> outcome bool) (f : json -> bool) l :
  Forall (fun u => p u = Return (f u)) l ->
  filterM p l = Return (filter f l).
Proof.
  induction 1 as [|u l Hu _ IH]; simpl; [reflexivity|].
  rewrite Hu. simpl. rewrite IH. reflexivity.
Qed.

Lemma filter_twice (f g : json -> bool) l :
  filter g (filter f l) = filter (fun u => f u && g u) l.
Proof.
  induction l as [|u l IH]; simpl; [reflexivity|].
  destruct (f u); simpl; [|exact IH].
  destruct (g u); now rewrite IH.
Qed.

Lemma Forall_filter (P : json -> Prop) (f : json -> bool) l :
  Forall P l -> Forall P (filter f l).
Proof.
  induction 1 as [|u l Hu _ IH]; simpl; [constructor|].
  destruct (f u); [now constructor | assumption].
Qed.

Lemma q_callback_record q u :
  user_record u = true ->
  q_callback (toLowerCase q) u = Return (name_matches q u).
Proof.
  destruct u as [| | | | |o]; try discriminate.
  unfold user_record, q_callback, name_matches, string_at. cbn.
  destruct (Obj.get "firstName" o) as [[| | |f| |]|]; try discriminate.
  destruct (Obj.get "lastName" o) as [[| | |l| |]|]; try discriminate.
  intros _. cbn.
  now destruct (includes (toLowerCase f) (toLowerCase q)).
Qed.

Lemma toLowerCase_empty s : toLowerCase s = "" -> s = "".
Proof. destruct s; [reflexivity | discriminate]. Qed.

Lemma city_callback_record city u :
  city <> "" -> user_record u = true ->
  city_callback city u = Return (city_matches city u).
Proof.
  intros Hcity. destruct u as [| | | | |o]; try discriminate.
  unfold user_record, city_callback, city_matches. cbn.
  destruct (Obj.get "firstName" o) as [[| | |f| |]|]; try discriminate.
  destruct (Obj.get "lastName" o) as [[| | |l| |]|]; try discriminate.
  destruct (Obj.get "city" o) as [[| | |c| |]|]; try discriminate;
    intros _; [|reflexivity].
  destruct c as [|a c]; [|reflexivity].
  cbn. destruct (toLowerCase city) eqn:E; [|reflexivity].
  apply toLowerCase_empty in E. contradiction.
Qed.

Lemma isActive_callback_record v u :
  is_record u = true ->
  isActive_callback v u = Return (active_is (String.eqb v "true") u).
Proof. destruct u; try discriminate. reflexivity. Qed.

Lemma user_record_is_record u : user_record u = true -> is_record u = true.
Proof. destruct u; try discriminate. reflexivity. Qed.

Lemma supplied_nonempty param v : supplied param = Some v -> v <> "".
Proof.
  destruct param as [[|a s]|]; simpl; try discriminate.
  intros H. injection H as <-. discriminate.
Qed.

Lemma filter_when_pure param callback (p : string -> json -> bool) l :
  (forall v, supplied param = Some v ->
             Forall (fun u => callback v u = Return (p v u)) l) ->
  filter_when param callback l = Return (filter (when_supplied param p) l).
Proof.
  unfold filter_when, when_supplied. intros H.
  destruct (supplied param) as [v|].
  - apply filterM_pure. now apply H.
  - clear H. induction l as [|u l IH]; simpl; [reflexivity|].
    congruence.
Qed.

(** The list handler on a stored collection of records. *)
Lemma list_users_run q city isActive users :
  forallb user_record users = true ->
  list_users q city isActive (stored users) =
  (listing (filter (matches q city isActive) users), stored users).
Proof.
  intros Hrec. rewrite forallb_forall in Hrec. apply Forall_forall in Hrec.
  unfold list_users, guarded. cbn -[filter_when]. unfold lift.
  rewrite (filter_when_pure q _ name_matches).
  2:{ intros v _. eapply Forall_impl; [|exact Hrec].
      intros u Hu. now apply q_callback_record. }
  cbn -[filter_when].
  rewrite (filter_when_pure city _ city_matches).
  2:{ intros v Hv. apply supplied_nonempty in Hv. apply Forall_filter.
      eapply Forall_impl; [|exact Hrec].
      intros u Hu. now apply city_callback_record. }
  cbn -[filter_when].
  rewrite (filter_when_pure isActive _
             (fun v => active_is (String.eqb v "true"))).
  2:{ intros v _. do 2 apply Forall_filter.
      eapply Forall_impl; [|exact Hrec].
      intros u Hu. apply isActive_callback_record.
      now apply user_record_is_record. }
  rewrite !filter_twice.
  rewrite (filter_ext _ (matches q city isActive)); [reflexivity|].
  intros u. unfold matches. now rewrite andb_assoc.
Qed.

(** C10.  On a stored collection of user records, an [isActive] parameter
    with any non-empty value other than the exact text "true" keeps the
    records whose [isActive] is exactly [false]; the exact text "true" keeps
    those whose [isActive] is exactly [true]; an absent or empty parameter
    filters nothing. *)
Theorem isActive_parameter_reading :
  forall (q city : option string) (users : list json),
    forallb user_record users = true ->
    let others := filter (matches q city None) users in
    (forall v, v <> "" -> v <> "true" ->
       list_users q city (Some v) (stored users) =
       (listing (filter (active_is false) others), stored users)) /\
    list_users q city (Some "true") (stored users) =
      (listing (filter (active_is true) others), stored users) /\
    list_users q city None (stored users) = (listing others, stored users) /\
    list_users q city (Some "") (stored users) = (listing others, stored users).
Proof.
  intros q city users Hrec others. unfold others.
  assert (Hnone : forall u, matches q city None u =
                            when_supplied q name_matches u &&
                            when_supplied city city_matches u).
  { intros u. unfold matches. cbn. apply andb_true_r. }
  repeat split.
  - intros v Hne Htrue. rewrite list_users_run by assumption.
    rewrite filter_twice. do 2 f_equal. apply filter_ext. intros u.
    rewrite Hnone. unfold matches. f_equal.
    unfold when_supplied. destruct v as [|a v]; [contradiction|]. cbn [supplied].
    apply String.eqb_neq in Htrue. now rewrite Htrue.
  - rewrite list_users_run by assumption.
    rewrite filter_twice. do 2 f_equal. apply filter_ext. intros u.
    now rewrite Hnone.
  - now rewrite list_users_run.
  - rewrite list_users_run by assumption. do 2 f_equal.
Qed.

Lemma isActive_parameter_reading_witness :
  list_users None None (Some "yes") (stored [paris_record; berlin_record]) =
  (listing [berlin_record], stored [paris_record; berlin_record]).
Proof.
  apply (proj1 (isActive_parameter_reading None None
                  [paris_record; berlin_record] eq_refl) "yes");
    discriminate.
Defined.

(** ** The string methods against the specification's words *)

Lemma nat_of_lower_unit a :
  nat_of_ascii (lower_unit a) =
  let n := nat_of_ascii a in
  if ((65 <=? n) && (n <=? 90)) ||
     ((192 <=? n) && (n <=? 222) && negb (n =? 215))
  then n + 32 else n.
Proof.
  unfold lower_unit. cbv zeta.
  destruct (((65 <=? nat_of_ascii a) && (nat_of_ascii a <=? 90)) ||
            ((192 <=? nat_of_ascii a) && (nat_of_ascii a <=? 222) &&
             negb (nat_of_ascii a =? 215))) eqn:E; [|reflexivity].
  apply nat_ascii_embedding.
  rewrite orb_true_iff, !andb_true_iff, !Nat.leb_le in E. lia.
Qed.

Lemma nat_of_ascii_inj a b : nat_of_ascii a = nat_of_ascii b -> a = b.
Proof.
  intros H. rewrite <- (ascii_nat_embedding a), <- (ascii_nat_embedding b).
  now rewrite H.
Qed.

Lemma lower_unit_same a b :
  lower_unit a = lower_unit b <-> same_letter a b = true.
Proof.
  split.
  - intros H. apply (f_equal nat_of_ascii) in H.
    rewrite !nat_of_lower_unit in H. cbv zeta in H.
    unfold same_letter, case_pair. cbv zeta.
    set (m := nat_of_ascii a) in *. set (n := nat_of_ascii b) in *.
    rewrite !orb_true_iff, !andb_true_iff, !orb_true_iff, !andb_true_iff,
      !negb_true_iff, !Nat.eqb_eq, !Nat.leb_le, !Nat.eqb_neq.
    destruct (((65 <=? m) && (m <=? 90)) ||
              ((192 <=? m) && (m <=? 222) && negb (m =? 215))) eqn:Em;
      destruct (((65 <=? n) && (n <=? 90)) ||
                ((192 <=? n) && (n <=? 222) && negb (n =? 215))) eqn:En;
      try (rewrite orb_true_iff, !andb_true_iff, negb_true_iff,
             !Nat.leb_le, Nat.eqb_neq in Em);
      try (rewrite orb_true_iff, !andb_true_iff, negb_true_iff,
             !Nat.leb_le, Nat.eqb_neq in En);
      lia.
  - intros H. apply nat_of_ascii_inj. rewrite !nat_of_lower_unit. cbv zeta.
    unfold same_letter, case_pair in H. cbv zeta in H.
    set (m := nat_of_ascii a) in *. set (n := nat_of_ascii b) in *.
    rewrite !orb_true_iff, !andb_true_iff, !orb_true_iff, !andb_true_iff,
      !negb_true_iff, !Nat.eqb_eq, !Nat.leb_le, !Nat.eqb_neq in H.
    destruct (((65 <=? m) && (m <=? 90)) ||
              ((192 <=? m) && (m <=? 222) && negb (m =? 215))) eqn:Em;
      destruct (((65 <=? n) && (n <=? 90)) ||
                ((192 <=? n) && (n <=? 222) && negb (n =? 215))) eqn:En;
      try (rewrite orb_true_iff, !andb_true_iff, negb_true_iff,
             !Nat.leb_le, Nat.eqb_neq in Em);
      try (rewrite orb_false_iff, !andb_false_iff, negb_false_iff,
             !Nat.leb_gt, Nat.eqb_eq in Em);
      try (rewrite orb_true_iff, !andb_true_iff, negb_true_iff,
             !Nat.leb_le, Nat.eqb_neq in En);
      try (rewrite orb_false_iff, !andb_false_iff, negb_false_iff,
             !Nat.leb_gt, Nat.eqb_eq in En);
      lia.
Qed.

Lemma toLowerCase_same s t :
  toLowerCase s = toLowerCase t <-> same_text s t = true.
Proof.
  revert t. induction s as [|a s IH]; intros [|b t]; cbn;
    try (split; (reflexivity || discriminate)).
  rewrite andb_true_iff, <- lower_unit_same, <- IH. split.
  - intros H. now injection H.
  - now intros [-> ->].
Qed.

Lemma toLowerCase_app s t :
  toLowerCase (s ++ t) = (toLowerCase s ++ toLowerCase t)%string.
Proof. induction s as [|a s IH]; cbn; [reflexivity | now rewrite IH]. Qed.

(** A text whose lower-case form splits in two splits in two itself. *)
Lemma toLowerCase_split s a b :
  toLowerCase s = (a ++ b)%string ->
  exists s1 s2, s = (s1 ++ s2)%string /\ toLowerCase s1 = a /\ toLowerCase s2 = b.
Proof.
  revert s. induction a as [|c a IH]; intros s H.
  - exists "", s. auto.
  - destruct s as [|c' s]; [discriminate|]. cbn in H. injection H as Hc H.
    destruct (IH s H) as (s1 & s2 & -> & <- & <-).
    exists (String c' s1), s2. cbn. now rewrite Hc.
Qed.

Lemma prefix_app t s :
  String.prefix t s = true <-> exists after, s = (t ++ after)%string.
Proof.
  revert s. induction t as [|a t IH]; intros s.
  - destruct s; cbn; (split; [intros _; eexists; reflexivity | reflexivity]).
  - destruct s as [|b s]; cbn.
    + split; [discriminate | intros [after H]; discriminate].
    + destruct (ascii_dec a b) as [->|Hne].
      * rewrite IH. split; intros [after H]; exists after.
        -- now rewrite H.
        -- now injection H.
      * split; [discriminate|]. intros [after H]. injection H as H _.
        now destruct Hne.
Qed.

(** [s.includes(t)]: [t] is a stretch of [s]. *)
Lemma includes_stretch s t :
  includes s t = true <->
  exists before after, s = (before ++ t ++ after)%string.
Proof.
  split.
  - induction s as [|c s IH]; cbn [includes].
    + destruct t; cbn; [|discriminate]. intros _. now exists "", "".
    + destruct (String.prefix t (String c s)) eqn:P.
      * intros _. apply prefix_app in P. destruct P as [after P].
        now exists "", after.
      * intros H. destruct (IH H) as (before & after & ->).
        now exists (String c before), after.
  - intros (before & after & ->).
    induction before as [|c before IH].
    + assert (P : String.prefix t (t ++ after) = true)
        by (apply prefix_app; now exists after).
      change ("" ++ t ++ after)%string with (t ++ after)%string.
      destruct (t ++ after)%string; cbn [includes]; now rewrite P.
    + change (String c before ++ t ++ after)%string
        with (String c (before ++ t ++ after)).
      cbn [includes]. rewrite IH. now destruct (String.prefix t _).
Qed.

(** The handler's test on a name is the specification's: the query occurs
    in the name up to letter case. *)
Lemma includes_occurs q s :
  includes (toLowerCase s) (toLowerCase q) = true <-> occurs_in q s.
Proof.
  rewrite includes_stretch. unfold occurs_in. split.
  - intros (before & after & H).
    apply toLowerCase_split in H. destruct H as (s1 & s' & -> & <- & H).
    apply toLowerCase_split in H. destruct H as (s2 & s3 & -> & H & <-).
    exists s1, s2, s3. split; [reflexivity|]. now apply toLowerCase_same.
  - intros (before & stretch & after & -> & H).
    apply toLowerCase_same in H.
    exists (toLowerCase before), (toLowerCase after).
    now rewrite !toLowerCase_app, H.
Qed.

Lemma eqb_lower_same s t :
  String.eqb (toLowerCase s) (toLowerCase t) = same_text s t.
Proof.
  apply Bool.eq_true_iff_eq. rewrite String.eqb_eq. apply toLowerCase_same.
Qed.

Lemma same_text_empty c : c <> "" -> same_text "" c = false.
Proof. destruct c; [contradiction | reflexivity]. Qed.

(** ** The list handler on parameters of any shape *)

Lemma city_filter_record c u :
  c <> "" -> user_record u = true ->
  city_filter (Text c) u = Return (city_matches c u).
Proof.
  intros Hc Hu. rewrite <- (city_callback_record c u Hc Hu).
  unfold city_filter, city_callback.
  destruct (prop "city" u) as [v|e]; [|reflexivity]. cbn.
  destruct (truthy v); [|reflexivity]. now destruct (call_toLowerCase v).
Qed.

Lemma city_matches_is c u : city_matches c u = city_is c u.
Proof.
  unfold city_matches, city_is.
  destruct (Obj.get "city" (props u)) as [[| | |x| |]|]; try reflexivity.
  apply eqb_lower_same.
Qed.

Lemma isActive_filter_record p u :
  is_record u = true ->
  isActive_filter p u = Return (active_is (param_is_true p) u).
Proof. destruct u; try discriminate. reflexivity. Qed.

Lemma name_matches_has s u : name_matches s u = true <-> name_has s u.
Proof.
  unfold name_matches, name_has. now rewrite orb_true_iff, !includes_occurs.
Qed.

(** A city that is not a text: the callback throws on the first record
    that has a city, and keeps no record that has none. *)
Lemma city_filter_repeated p l :
  one_text (Some p) = false -> forallb user_record l = true ->
  filterM (city_filter p) l =
  if existsb has_city l then Throw TypeError else Return [].
Proof.
  intros Hp. induction l as [|u l IH]; [reflexivity|].
  cbn [forallb existsb]. rewrite andb_true_iff. intros [Hu Hl].
  cbn [filterM].
  assert (Hcb : city_filter p u =
                if has_city u then Throw TypeError else Return false).
  { destruct u as [| | | | |o]; try discriminate.
    unfold user_record in Hu. unfold city_filter, has_city. cbn.
    destruct (Obj.get "firstName" o) as [[| | |f| |]|]; try discriminate.
    destruct (Obj.get "lastName" o) as [[| | |l'| |]|]; try discriminate.
    destruct (Obj.get "city" o) as [[| | |c'| |]|]; try discriminate;
      [|reflexivity].
    destruct c' as [|a c']; [reflexivity|]. cbn.
    destruct p; [discriminate | reflexivity | reflexivity]. }
  rewrite Hcb. destruct (has_city u); [reflexivity|]. cbn.
  rewrite (IH Hl). now destruct (existsb has_city l).
Qed.

Section ListQuery.
Variables q city isActive : option param.

Lemma filter_all (l : list json) : filter (fun _ => true) l = l.
Proof. induction l as [|u l IH]; simpl; congruence. Qed.

Lemma q_stage users :
  forallb user_record users = true -> one_text q = true ->
  match given q with
  | Some q0 =>
      searchTerm <- param_toLowerCase q0 ;;
      filterM (q_callback searchTerm) users
  | None => Return users
  end = Return (filter (kept_by_name q) users).
Proof.
  intros Hrec Hq. rewrite forallb_forall in Hrec. apply Forall_forall in Hrec.
  unfold kept_by_name.
  destruct q as [[s| |]|]; try discriminate; cbn [given];
    [destruct s as [|a s]|]; cbn [param_toLowerCase bind outcome_monad];
    try (now rewrite filter_all).
  apply filterM_pure. eapply Forall_impl; [|exact Hrec].
  intros u Hu. now apply q_callback_record.
Qed.

Lemma city_stage l :
  forallb user_record l = true -> one_text city = true ->
  match given city with
  | Some city0 => filterM (city_filter city0) l
  | None => Return l
  end = Return (filter (kept_by_city city) l).
Proof.
  intros Hrec Hc. rewrite forallb_forall in Hrec. apply Forall_forall in Hrec.
  unfold kept_by_city.
  destruct city as [[c| |]|]; try discriminate; cbn [given];
    [destruct c as [|a c]|]; try (now rewrite filter_all).
  apply filterM_pure. eapply Forall_impl; [|exact Hrec].
  intros u Hu. now apply city_filter_record.
Qed.

Lemma active_stage l :
  forallb user_record l = true ->
  match given isActive with
  | Some isActive0 => filterM (isActive_filter isActive0) l
  | None => Return l
  end = Return (filter (kept_by_active isActive) l).
Proof.
  intros Hrec. rewrite forallb_forall in Hrec. apply Forall_forall in Hrec.
  unfold kept_by_active.
  destruct (given isActive) as [p|]; [|now rewrite filter_all].
  apply filterM_pure. eapply Forall_impl; [|exact Hrec].
  intros u Hu. apply isActive_filter_record. now apply user_record_is_record.
Qed.

Lemma forallb_filter (f g : json -> bool) l :
  forallb f l = true -> forallb f (filter g l) = true.
Proof.
  induction l as [|u l IH]; simpl; [trivial|].
  rewrite andb_true_iff. intros [Hu Hl].
  destruct (g u); simpl; [rewrite Hu|]; auto.
Qed.

Lemma list_query_stored users :
  list_query q city isActive (stored users) =
  match
    (by_q <- match given q with
             | Some q0 =>
                 searchTerm <- param_toLowerCase q0 ;;
                 filterM (q_callback searchTerm) users
             | None => Return users
             end ;;
     by_city <- match given city with
                | Some city0 => filterM (city_filter city0) by_q
                | None => Return by_q
                end ;;
     match given isActive with
     | Some isActive0 => filterM (isActive_filter isActive0) by_city
     | None => Return by_city
     end)
  with
  | Return l => (listing l, stored users)
  | Throw _ => ({| status := 500; body := Failure list_failed |}, stored users)
  end.
Proof.
  unfold list_query, guarded. cbn -[given param_toLowerCase filterM].
  unfold lift. now destruct (_ : outcome (list json)).
Qed.

Lemma list_query_run users :
  forallb user_record users = true ->
  one_text q = true -> one_text city = true ->
  list_query q city isActive (stored users) =
  (listing (filter (fun u => kept_by_name q u && kept_by_city city u &&
                      kept_by_active isActive u) users),
   stored users).
Proof.
  intros Hrec Hq Hc. rewrite list_query_stored.
  rewrite (q_stage users Hrec Hq). cbn [bind outcome_monad].
  rewrite (city_stage _ (forallb_filter _ (kept_by_name q) _ Hrec) Hc).
  cbn [bind outcome_monad].
  rewrite (active_stage _ (forallb_filter _ (kept_by_city city) _
                             (forallb_filter _ (kept_by_name q) _ Hrec))).
  rewrite !filter_twice.
  rewrite (filter_ext _ (fun u => kept_by_name q u && kept_by_city city u &&
                      kept_by_active isActive u));
    [reflexivity|].
  intros u. now rewrite andb_assoc.
Qed.

End ListQuery.

(** The filter that the handler applies is the one the parameters ask
    for. *)
Lemma kept_selected q city isActive u :
  one_text q = true -> one_text city = true ->
  kept_by_name q u && kept_by_city city u && kept_by_active isActive u = true <->
  selected q city isActive u.
Proof.
  intros Hq Hc. unfold selected, kept_by_name, kept_by_city, kept_by_active.
  rewrite !andb_true_iff.
  assert (Q : match given q with
              | Some (Text s) => name_matches s u
              | _ => true
              end = true <->
              (forall s, q = Some (Text s) -> s <> "" -> name_has s u)).
  { destruct q as [[s| |]|]; try discriminate; cbn [given].
    - destruct s as [|a s].
      + split; [|reflexivity]. intros _ s H. injection H as <-. contradiction.
      + rewrite name_matches_has. split.
        * intros H s' E _. now injection E as <-.
        * intros H. apply H; [reflexivity | discriminate].
    - split; [|reflexivity]. intros _ s H. discriminate. }
  assert (C : match given city with
              | Some (Text c) => city_matches c u
              | _ => true
              end = true <->
              (forall c, city = Some (Text c) -> c <> "" -> city_is c u = true)).
  { destruct city as [[c| |]|]; try discriminate; cbn [given].
    - destruct c as [|a c].
      + split; [|reflexivity]. intros _ c H. injection H as <-. contradiction.
      + rewrite city_matches_is. split.
        * intros H c' E _. now injection E as <-.
        * intros H. apply H; [reflexivity | discriminate].
    - split; [|reflexivity]. intros _ c H. discriminate. }
  assert (A : match given isActive with
              | Some p => active_is (param_is_true p) u
              | None => true
              end = true <->
              (isActive = Some (Text "true") -> active_is true u = true) /\
              (forall p, isActive = Some p -> p <> Text "" ->
                         p <> Text "true" -> active_is false u = true)).
  { destruct isActive as [p|]; cbn [given].
    2:{ split; [|reflexivity]. intros _. split; [discriminate|].
        intros p H. discriminate. }
    destruct p as [s|l|l].
    - destruct s as [|a s].
      + split; [|reflexivity]. intros _. split; [discriminate|].
        intros p H. injection H as <-. contradiction.
      + cbn [param_is_true].
        destruct (String.eqb (String a s) "true") eqn:E.
        * apply String.eqb_eq in E. rewrite E. split.
          -- intros H. split; [auto|]. intros p Hp _ Hne.
             injection Hp as <-. contradiction.
          -- intros [H _]. now apply H.
        * apply String.eqb_neq in E. split.
          -- intros H. split.
             ++ intros Hp. congruence.
             ++ intros p Hp _ _. exact H.
          -- intros [_ H]. apply (H (Text (String a s)));
               [reflexivity | discriminate | congruence].
    - cbn. split.
      + intros H. split; [discriminate|]. intros p _ _ _. exact H.
      + intros [_ H]. apply (H (Repeated l)); [reflexivity | discriminate..].
    - cbn. split.
      + intros H. split; [discriminate|]. intros p _ _ _. exact H.
      + intros [_ H]. apply (H (Nested l)); [reflexivity | discriminate..]. }
  rewrite Q, C, A. tauto.
Qed.

Lemma city_is_same c c' u :
  same_text c c' = true -> city_is c u = city_is c' u.
Proof.
  intros H. apply toLowerCase_same in H. unfold city_is.
  destruct (Obj.get "city" (props u)) as [[| | |x| |]|]; try reflexivity.
  now rewrite <- !eqb_lower_same, H.
Qed.

Lemma by_name_selected q u :
  one_text q = true -> kept_by_name q u = true <-> selected q None None u.
Proof.
  intros Hq.
  rewrite <- (kept_selected q None None u Hq eq_refl).
  unfold kept_by_city, kept_by_active. cbn [given]. now rewrite !andb_true_r.
Qed.




(** [list_users] is the handler on parameters that are each absent or one
    text. *)
Lemma list_users_is_list_query q city isActive d :
  list_users q city isActive d =
  list_query (option_map Text q) (option_map Text city)
    (option_map Text isActive) d.
Proof.
  unfold list_users, list_query, guarded. cbn -[readUsersFile].
  destruct (readUsersFile d) as [[users|e] d']; [|reflexivity].
  destruct q as [[|a s]|], city as [[|a' s']|], isActive as [[|a'' s'']|];
    reflexivity.
Qed.

(** ** Delete *)

Lemma has_id_true id u : has_id id u = true -> id_is id u = Return true.
Proof.
  intros H. assert (Hr : is_record u = true).
  { destruct u; try discriminate H. reflexivity. }
  rewrite (id_is_record id u Hr). now rewrite H.
Qed.

Lemma others_miss id l :
  forallb is_record l = true ->
  forallb (fun v => negb (has_id id v)) l = true ->
  Forall (fun v => id_is id v = Return false) l.
Proof.
  rewrite !forallb_forall. intros Hrec Hid. apply Forall_forall.
  intros v Hin. rewrite (id_is_record id v (Hrec v Hin)).
  specialize (Hid v Hin). apply negb_true_iff in Hid. now rewrite Hid.
Qed.

(** C7.  In a collection of records where [u] is the only one carrying the
    id, DELETE of that id answers 200 with [u], persists the collection
    without [u] and with the other records in their order, and a following
    GET of the same id answers 404. *)
Theorem delete_then_get_not_found :
  forall (id : string) (before : list json) (u : json) (after : list json),
    forallb is_record (before ++ after) = true ->
    has_id id u = true ->
    forallb (fun v => negb (has_id id v)) (before ++ after) = true ->
    delete_user id (stored (before ++ u :: after)) =
      (json_ok (SuccessNote u user_deleted), stored (before ++ after)) /\
    get_user id (stored (before ++ after)) =
      (not_found, stored (before ++ after)).
Proof.
  intros id before u after Hrec Hu Hothers.
  pose proof (others_miss id _ Hrec Hothers) as Hmiss.
  split.
  - assert (Hf : findIndex (id_is id) (before ++ u :: after)
                 = Return (Some (List.length before))).
    { apply findIndex_at; [|now apply has_id_true].
      apply Forall_app in Hmiss. tauto. }
    unfold delete_user, guarded. cbn. unfold lift. rewrite Hf.
    cbn. now rewrite nth_at, splice_out_middle.
  - apply get_user_missing. now apply find_all_false.
Qed.

Lemma delete_then_get_not_found_witness :
  delete_user id_ann (stored [berlin_record; paris_record]) =
    (json_ok (SuccessNote paris_record user_deleted), stored [berlin_record]) /\
  get_user id_ann (stored [berlin_record]) = (not_found, stored [berlin_record]).
Proof.
  exact (delete_then_get_not_found id_ann [berlin_record] paris_record []
           eq_refl eq_refl eq_refl).
Defined.

(** ** Storage *)

(** C9.  [readUsersFile] returns the sequence held by the file and leaves
    the file as it is; when the file does not exist it writes the empty
    sequence and returns the empty sequence; a read failure with any other
    code, text that does not parse, or a failure of that first write is
    thrown to the caller, and the handler answers 500. *)
Theorem readUsersFile_contract :
  (forall users w,
     let d := {| users_json := Holds (Encoded users); write_error := w |} in
     readUsersFile d = (Return users, d)) /\
  readUsersFile {| users_json := Absent; write_error := None |} =
    (Return [], stored []) /\
  (forall code w,
     code <> "ENOENT" ->
     let d := {| users_json := Unreadable code; write_error := w |} in
     readUsersFile d = (Throw (Errno code), d) /\
     forall q city isActive,
       list_users q city isActive d =
       ({| status := 500; body := Failure list_failed |}, d)) /\
  (forall w,
     let d := {| users_json := Holds Garbage; write_error := w |} in
     readUsersFile d = (Throw SyntaxError, d)) /\
  (forall code,
     let d := {| users_json := Absent; write_error := Some code |} in
     readUsersFile d = (Throw (Errno code), d)).
Proof.
  split; [reflexivity|]. split; [reflexivity|].
  split; [|split; reflexivity].
  intros code w Hne d.
  assert (Hread : readUsersFile d = (Throw (Errno code), d)).
  { unfold readUsersFile, try_catch. cbn.
    apply String.eqb_neq in Hne. now rewrite Hne. }
  split; [exact Hread|].
  intros q city isActive. unfold list_users, guarded.
  cbn -[readUsersFile]. now rewrite Hread.
Qed.

Lemma readUsersFile_contract_witness :
  readUsersFile {| users_json := Unreadable "EACCES"; write_error := None |} =
  (Throw (Errno "EACCES"),
   {| users_json := Unreadable "EACCES"; write_error := None |}).
Proof.
  apply (proj1 (proj1 (proj2 (proj2 readUsersFile_contract))
                  "EACCES" None ltac:(discriminate))).
Defined.

(** ** The stored collection stays a collection of user records *)

Section Invariant.
Context {lib : JoiLib}.
Import Obj ObjFacts.

Lemma write_back_untouched o k cs value :
  ~ In k (map name cs) ->
  get k (fold_left (write_back o) cs value) = get k value.
Proof.
  revert value. induction cs as [|c cs IH]; intros value Hnin; simpl;
    [reflexivity|].
  simpl in Hnin. rewrite IH by tauto. unfold write_back.
  destruct (fst (validate_child c (body_field (name c) o))); [|reflexivity].
  apply get_set_other. intro; subst; tauto.
Qed.

(** The validated value at a schema key: the converted value of that key,
    or what the copy of the body has when the key's check yields nothing. *)
Lemma validated_get o c cs value :
  NoDup (map name cs) -> In c cs ->
  get (name c) (fold_left (write_back o) cs value) =
  match fst (validate_child c (body_field (name c) o)) with
  | Some x => Some x
  | None => get (name c) value
  end.
Proof.
  revert value. induction cs as [|c' cs IH]; intros value Hnd Hin;
    [destruct Hin|].
  inversion Hnd as [|? ? Hnin Hnd']; subst. simpl.
  destruct Hin as [->|Hin].
  - rewrite write_back_untouched by assumption. unfold write_back.
    destruct (fst (validate_child c (body_field (name c) o)));
      [apply get_set_same | reflexivity].
  - rewrite IH by assumption.
    destruct (fst (validate_child c (body_field (name c) o)));
      [reflexivity|].
    unfold write_back.
    destruct (fst (validate_child c' (body_field (name c') o)));
      [|reflexivity].
    apply get_set_other.
    intro Heq. apply Hnin. rewrite <- Heq. now apply in_map.
Qed.

(** An own property of the copy is what the validation reads. *)
Lemma body_field_own k o v :
  get k (assigned o) = Some v -> body_field k o = Some v.
Proof. intros H. unfold body_field, read. now rewrite H. Qed.

Lemma body_field_none k o :
  body_field k o = None -> get k (assigned o) = None.
Proof.
  unfold body_field, read. now destruct (get k (assigned o)).
Qed.

Lemma string_child_clean c item :
  (exists rules, type c = JoiString rules) ->
  snd (validate_child c item) = [] ->
  match item with
  | None => required c = false /\ fst (validate_child c item) = default c
  | Some v => (exists s, v = JStr s) /\ fst (validate_child c item) = Some v
  end.
Proof.
  intros [rules Hty]. unfold validate_child. destruct item as [v|].
  - rewrite Hty.
    destruct v as [| | |s| |]; cbn; try discriminate.
    destruct s; cbn; [discriminate|]. intros _. split; [eauto | reflexivity].
  - destruct (required c); cbn; [discriminate | auto].
Qed.

Lemma flat_map_nil {A B} (f : A -> list B) l x :
  flat_map f l = [] -> In x l -> f x = [].
Proof.
  induction l as [|y l IH]; simpl; [tauto|].
  intros H [->|Hin]; apply app_eq_nil in H; [tauto | apply IH; tauto].
Qed.

(** A body that passes validation yields a value whose names are strings
    and whose city, if any, is a string. *)
Lemma valid_is_user_record body value :
  validate body = Valid value -> user_record (JObj value) = true.
Proof.
  intros Hv. apply validate_Valid in Hv.
  destruct Hv as (o & -> & -> & Herr & _).
  assert (Hstr : forall c, In c userSchema ->
            (exists rules, type c = JoiString rules) ->
            match body_field (name c) o with
            | None => required c = false /\ default c = None ->
                      get (name c)
                        (fold_left (write_back o) userSchema (assigned o))
                      = None
            | Some v => (exists s, v = JStr s) /\
                        get (name c)
                          (fold_left (write_back o) userSchema (assigned o))
                        = Some v
            end).
  { intros c Hin Hty.
    pose proof (flat_map_nil _ _ c Herr Hin) as Hc. unfold child_errors in Hc.
    pose proof (string_child_clean c _ Hty Hc) as Hclean.
    rewrite (validated_get o c userSchema (assigned o) userSchema_names Hin).
    destruct (body_field (name c) o) as [v|] eqn:B.
    - destruct Hclean as [Hs ->]. auto.
    - destruct Hclean as [_ ->]. intros [_ ->]. now apply body_field_none. }
  unfold user_record.
  pose proof (Hstr _ (or_introl eq_refl) (ex_intro _ _ eq_refl)) as H1.
  pose proof (Hstr _ (or_intror (or_introl eq_refl)) (ex_intro _ _ eq_refl))
    as H2.
  pose proof (Hstr _ (or_intror (or_intror (or_intror (or_intror
                        (or_introl eq_refl))))) (ex_intro _ _ eq_refl)) as H5.
  cbn [name required default] in H1, H2, H5.
  pose proof (flat_map_nil _ _ _ Herr (or_introl eq_refl)) as R1.
  pose proof (flat_map_nil _ _ _ Herr (or_intror (or_introl eq_refl))) as R2.
  unfold child_errors, validate_child in R1, R2. cbn [name required] in R1, R2.
  destruct (body_field "firstName" o) as [v1|]; [|discriminate R1].
  destruct (body_field "lastName" o) as [v2|]; [|discriminate R2].
  destruct H1 as [[s1 ->] ->]. destruct H2 as [[s2 ->] ->].
  destruct (body_field "city" o) as [v5|].
  - destruct H5 as [[s5 ->] ->]. reflexivity.
  - rewrite H5 by auto. reflexivity.
Qed.

End Invariant.

Section Preservation.
Context {lib : JoiLib}.
Import Obj ObjFacts.

Lemma get_spread k o src :
  distinct_keys src = true ->
  get k (spread o src) =
  match get k src with
  | Some v => Some v
  | None => get k o
  end.
Proof.
  intros Hd. destruct (get k src) as [v|] eqn:G.
  - now apply get_spread_in.
  - apply get_spread_notin. now apply get_none_iff.
Qed.

Lemma user_record_reads o o' :
  get "firstName" o' = get "firstName" o ->
  get "lastName" o' = get "lastName" o ->
  get "city" o' = get "city" o ->
  user_record (JObj o') = user_record (JObj o).
Proof. unfold user_record. now intros -> -> ->. Qed.

(** The names and the city of an object, where present, are strings. *)
Lemma record_own_strings data :
  user_record (JObj data) = true ->
  forall k, In k ["firstName"; "lastName"; "city"] ->
            get k data = None \/ exists s, get k data = Some (JStr s).
Proof.
  unfold user_record. intros H k Hk.
  destruct Hk as [<-|[<-|[<-|[]]]];
    destruct (get "firstName" data) as [[| | |f| |]|]; try discriminate;
    destruct (get "lastName" data) as [[| | |l| |]|]; try discriminate;
    eauto.
  destruct (get "city" data) as [[| | |c| |]|]; try discriminate; eauto.
Qed.

(** The names and the city that a body which passes validation has of its
    own are strings. *)
Lemma valid_body_own_strings o value :
  validate (JObj o) = Valid value ->
  forall k, In k ["firstName"; "lastName"; "city"] ->
            get k o = None \/ exists s, get k o = Some (JStr s).
Proof.
  intros Hv k Hk. apply validate_Valid in Hv.
  destruct Hv as (o' & Ho & _ & Herr & _). injection Ho as <-.
  assert (Hc : exists c, In c userSchema /\ name c = k /\
                         exists rules, type c = JoiString rules).
  { unfold userSchema. destruct Hk as [<-|[<-|[<-|[]]]].
    - eexists. split; [left; reflexivity|]. cbn. eauto.
    - eexists. split; [right; left; reflexivity|]. cbn. eauto.
    - eexists. split; [do 4 right; left; reflexivity|]. cbn. eauto. }
  destruct Hc as (c & Hin & <- & Hty).
  assert (Hne : name c <> "__proto__").
  { destruct Hk as [E|[E|[E|[]]]]; rewrite <- E; discriminate. }
  rewrite <- (get_assigned (name c) o Hne).
  destruct (get (name c) (assigned o)) as [v|] eqn:G; [right | now left].
  pose proof (flat_map_nil _ _ c Herr Hin) as R. unfold child_errors in R.
  rewrite (body_field_own _ _ _ G) in R.
  apply (string_child_clean c (Some v) Hty) in R. destruct R as [[s ->] _].
  eauto.
Qed.

Lemma new_user_is_record id value t1 t2 :
  distinct_keys value = true -> user_record (JObj value) = true ->
  user_record (JObj (new_user id value t1 t2)) = true.
Proof.
  intros Hd Hrec. rewrite <- Hrec. unfold new_user.
  apply user_record_reads;
    rewrite !get_set_other by discriminate; rewrite get_spread by assumption;
    match goal with |- context [get ?k value] => now destruct (get k value) end.
Qed.

Lemma updated_user_is_record existing data now :
  distinct_keys data = true ->
  (forall k, In k ["firstName"; "lastName"; "city"] ->
             get k data = None \/ exists s, get k data = Some (JStr s)) ->
  user_record existing = true ->
  user_record (JObj (updated_user existing data now)) = true.
Proof.
  intros Hd Hdata Hex. destruct existing as [| | | | |e]; try discriminate.
  unfold user_record in *.
  rewrite !updated_user_get by assumption.
  cbn [String.eqb Ascii.eqb Bool.eqb props].
  destruct (get "firstName" e) as [[| | |f'| |]|]; try discriminate.
  destruct (get "lastName" e) as [[| | |l'| |]|]; try discriminate.
  destruct (Hdata "firstName") as [->|[s1 ->]]; [cbn; auto | |];
    (destruct (Hdata "lastName") as [->|[s2 ->]]; [cbn; auto | |]);
    (destruct (Hdata "city") as [->|[s3 ->]]; [cbn; auto | |]);
    try reflexivity; exact Hex.
Qed.

Lemma forallb_store_at (f : json -> bool) i v l :
  f v = true -> forallb f l = true -> forallb f (store_at i v l) = true.
Proof.
  intros Hv. revert i. induction l as [|u l IH]; intros [|i]; simpl; auto;
    rewrite !andb_true_iff; intros [Hu Hl]; auto.
Qed.

Lemma forallb_splice_out (f : json -> bool) i l :
  forallb f l = true -> forallb f (splice_out i l) = true.
Proof.
  revert i. induction l as [|u l IH]; intros [|i]; simpl; auto;
    rewrite !andb_true_iff; intros [Hu Hl]; auto.
Qed.

Lemma forallb_nth (f : json -> bool) i l :
  forallb f l = true -> i < List.length l -> f (nth i l JNull) = true.
Proof.
  revert i. induction l as [|u l IH]; intros [|i]; simpl; try lia;
    rewrite andb_true_iff; intros [Hu Hl] Hi; [assumption|].
  apply IH; [assumption | lia].
Qed.

Lemma findIndex_bound p l i :
  findIndex p l = Return (Some i) -> i < List.length l.
Proof.
  intros H. apply findIndex_split in H.
  destruct H as (l1 & u & l2 & -> & <- & _). rewrite length_app. simpl. lia.
Qed.

(** Reading keeps the file a file of records and returns records. *)
Lemma readUsersFile_records d r d' :
  kept d -> readUsersFile d = (r, d') ->
  kept d' /\
  forall users, r = Return users -> forallb user_record users = true.
Proof.
  intros [Hs Hd]. unfold readUsersFile, try_catch, readFile. cbn.
  destruct d as [f w]. cbn. destruct f as [|c|[users|]|t c]; cbn;
    try discriminate Hs.
  - destruct w; cbn; intros H; injection H as <- <-.
    + split; [now split | discriminate].
    + split; [|intros users H; now injection H as <-].
      split; [reflexivity|].
      intros users H. cbn in H. now injection H as <-.
  - destruct (String.eqb c "ENOENT"); cbn.
    + destruct w; cbn; intros H; injection H as <- <-.
      * split; [now split | discriminate].
      * split; [|intros users H; now injection H as <-].
        split; [reflexivity|].
        intros users H. cbn in H. now injection H as <-.
    + intros H; injection H as <- <-. split; [now split | discriminate].
  - intros H; injection H as <- <-. split; [now split|].
    intros us H. injection H as <-. now apply Hd.
  - intros H; injection H as <- <-. split; [now split | discriminate].
Qed.

Lemma writeUsersFile_records users d :
  forallb user_record users = true -> kept d ->
  kept (snd (writeUsersFile users d)).
Proof.
  intros Hu [Hs Hd]. unfold writeUsersFile, writeFile.
  destruct (write_error d); cbn; [now split|].
  unfold sturdy in Hs.
  destruct (users_json d); try discriminate Hs; cbn;
    (split; [reflexivity|]); intros us H; cbn in H; now injection H as <-.
Qed.

Lemma guarded_snd c failed d : snd (guarded c failed d) = snd (c d).
Proof. unfold guarded. now destruct (c d) as [[r|e] d']. Qed.

Lemma replace_user_records users i data now d :
  distinct_keys data = true ->
  (forall k, In k ["firstName"; "lastName"; "city"] ->
             get k data = None \/ exists s, get k data = Some (JStr s)) ->
  forallb user_record users = true -> i < List.length users ->
  kept d ->
  kept (snd (replace_user users i data now d)).
Proof.
  intros Hd Hdata Hus Hi Hdk. unfold replace_user. cbn.
  set (users' := store_at i _ users).
  assert (Hus' : forallb user_record users' = true).
  { apply forallb_store_at; [|assumption].
    apply updated_user_is_record; try assumption.
    now apply forallb_nth. }
  pose proof (writeUsersFile_records users' d Hus' Hdk) as Hw.
  now destruct (writeUsersFile users' d) as [[[]|e] d'].
Qed.

Lemma create_user_records id t1 t2 body d :
  parsed_body (PostUser body) = true -> kept d ->
  kept (snd (create_user id t1 t2 body d)).
Proof.
  intros Hb Hd. unfold create_user, validateUserData.
  destruct (validate body) as [value|details] eqn:Hv; [|assumption].
  rewrite guarded_snd. cbn -[readUsersFile writeUsersFile].
  destruct (readUsersFile d) as [[users|e] d'] eqn:Hr; [|cbn];
    destruct (readUsersFile_records d _ d' Hd Hr) as [Hd' Hus]; [|assumption].
  specialize (Hus users eq_refl).
  assert (Hnew : forallb user_record
                   (users ++ [JObj (new_user id value t1 t2)]) = true).
  { rewrite forallb_app, Hus. cbn [forallb]. rewrite andb_true_r. cbn [andb].
    destruct (validate_Valid body value Hv) as (o & -> & _).
    apply new_user_is_record.
    - now apply (valid_distinct o).
    - now apply (valid_is_user_record (JObj o)). }
  pose proof (writeUsersFile_records _ d' Hnew Hd') as Hw.
  now destruct (writeUsersFile _ d') as [[[]|e] d''].
Qed.

Lemma update_user_records id now body d :
  parsed_body (PutUser id body) = true -> kept d ->
  kept (snd (update_user id now body d)).
Proof.
  intros Hb Hd. unfold update_user, validateUserData.
  destruct (validate body) as [value|details] eqn:Hv; [|assumption].
  rewrite guarded_snd. cbn -[readUsersFile replace_user].
  destruct (readUsersFile d) as [[users|e] d'] eqn:Hr; [|cbn];
    destruct (readUsersFile_records d _ d' Hd Hr) as [Hd' Hus]; [|assumption].
  specialize (Hus users eq_refl). unfold lift.
  destruct (findIndex (id_is id) users) as [[i|]|e] eqn:Hf; try assumption.
  destruct (validate_Valid body value Hv) as (o & -> & _).
  apply replace_user_records; try assumption.
  - now apply (valid_distinct o).
  - apply record_own_strings. now apply (valid_is_user_record (JObj o)).
  - eapply findIndex_bound; eassumption.
Qed.

Lemma patch_user_records id now body d :
  parsed_body (PatchUser id body) = true -> kept d ->
  kept (snd (patch_user id now body d)).
Proof.
  intros Hb Hd. unfold patch_user.
  rewrite guarded_snd. cbn -[readUsersFile replace_user validate].
  destruct (readUsersFile d) as [[users|e] d'] eqn:Hr; [|cbn];
    destruct (readUsersFile_records d _ d' Hd Hr) as [Hd' Hus]; [|assumption].
  specialize (Hus users eq_refl). unfold lift.
  destruct (findIndex (id_is id) users) as [[i|]|e] eqn:Hf; try assumption.
  destruct (validate body) as [value|details] eqn:Hv; [|assumption].
  destruct (validate_Valid body value Hv) as (o & -> & _).
  apply replace_user_records; try assumption.
  - now apply (valid_body_own_strings o value).
  - eapply findIndex_bound; eassumption.
Qed.

Lemma delete_user_records id d :
  kept d -> kept (snd (delete_user id d)).
Proof.
  intros Hd. unfold delete_user.
  rewrite guarded_snd. cbn -[readUsersFile writeUsersFile].
  destruct (readUsersFile d) as [[users|e] d'] eqn:Hr; [|cbn];
    destruct (readUsersFile_records d _ d' Hd Hr) as [Hd' Hus]; [|assumption].
  specialize (Hus users eq_refl). unfold lift.
  destruct (findIndex (id_is id) users) as [[i|]|e] eqn:Hf; try assumption.
  pose proof (writeUsersFile_records _ d'
                (forallb_splice_out user_record i users Hus) Hd') as Hw.
  cbn -[writeUsersFile].
  now destruct (writeUsersFile _ d') as [[[]|e] d''].
Qed.

Lemma read_only_records (c : list json -> IO response) failed d :
  (forall users d', snd (c users d') = d') ->
  kept d ->
  kept (snd (guarded (users <- readUsersFile ;; c users) failed d)).
Proof.
  intros Hc Hd. rewrite guarded_snd. cbn -[readUsersFile].
  destruct (readUsersFile d) as [[users|e] d'] eqn:Hr;
    destruct (readUsersFile_records d _ d' Hd Hr) as [Hd' _];
    [now rewrite Hc | assumption].
Qed.

(** Every request leaves the file a file of user records. *)
Lemma serve_keeps_records a r d :
  parsed_body r = true -> kept d ->
  kept (snd (serve a r d)).
Proof.
  intros Hb Hd. destruct r; cbn [serve].
  - apply read_only_records; [|assumption]. intros users d'.
    cbn. unfold lift. now destruct (_ : outcome (list json)).
  - apply read_only_records; [|assumption]. intros users d'.
    cbn. unfold lift. destruct (find (id_is id) users) as [[u|]|e];
      try reflexivity. now destruct (truthy (Some u)).
  - now apply create_user_records.
  - now apply update_user_records.
  - now apply patch_user_records.
  - now apply delete_user_records.
  - assumption.
  - assumption.
Qed.

(** X17.  Starting without a file, any sequence of requests leaves a file
    whose content, when it is a sequence, is a sequence of user records: the
    collections that the list handler is specified on. *)
Lemma service_holds_records rs w :
  forallb (fun ar => parsed_body (snd ar)) rs = true ->
  holds_records (serve_all rs {| users_json := Absent; write_error := w |}).
Proof.
  intros Hrs. unfold serve_all.
  assert (H0 : kept {| users_json := Absent; write_error := w |})
    by (split; [reflexivity | intros users H; discriminate H]).
  apply proj2 with (A := sturdy (fold_left
                                   (fun d ar => snd (serve (fst ar) (snd ar) d))
                                   rs {| users_json := Absent;
                                         write_error := w |}) = true).
  change (kept (fold_left (fun d ar => snd (serve (fst ar) (snd ar) d)) rs
                  {| users_json := Absent; write_error := w |})).
  revert H0. generalize {| users_json := Absent; write_error := w |}.
  induction rs as [|[a r] rs IH]; intros d Hd; [exact Hd|].
  cbn in Hrs. apply andb_true_iff in Hrs. destruct Hrs as [Hr Hrs].
  cbn [fold_left fst snd]. apply IH; [assumption|].
  now apply serve_keeps_records.
Qed.

End Preservation.

(** * Further properties *)

(** ** What the schema accepts *)

Section AcceptanceFacts.
Context {lib : JoiLib}.
Import Obj ObjFacts.

Lemma at_key_nil k codes : at_key k codes = [] <-> codes = [].
Proof. destruct codes; simpl; split; intros H; (reflexivity || discriminate). Qed.

Lemma name_value_clean k v :
  snd (validate_value (JoiString [SMin 2; SMax 50]) k v) = [] <->
  name_ok v = true.
Proof.
  destruct v as [| | |s| |]; cbn [validate_value snd name_ok];
    try (split; discriminate).
  destruct s as [|a s]; [cbn; split; discriminate|].
  cbn [snd]. rewrite at_key_nil. cbn [flat_map string_rule_fails].
  destruct (2 <=? String.length (String a s));
    destruct (String.length (String a s) <=? 50); cbn;
    split; intros H; (reflexivity || discriminate).
Qed.

Lemma email_value_clean k v :
  snd (validate_value (JoiString [SEmail]) k v) = [] <-> email_ok v = true.
Proof.
  destruct v as [| | |s| |]; cbn [validate_value snd email_ok];
    try (split; discriminate).
  destruct s as [|a s]; [cbn; split; discriminate|].
  cbn [snd]. rewrite at_key_nil. cbn [flat_map string_rule_fails].
  destruct (isEmail (String a s)); cbn;
    split; intros H; (reflexivity || discriminate).
Qed.

(** A rational between 1 and 120 is a safe integer magnitude. *)
Lemma in_range_safe q :
  Qle_bool (1 # 1) q = true -> Qle_bool q (120 # 1) = true ->
  Qlt_bool MAX_SAFE_INTEGER q || Qlt_bool q (Qopp MAX_SAFE_INTEGER) = false.
Proof.
  intros H1 H2. unfold Qlt_bool. apply orb_false_iff.
  rewrite !negb_false_iff. split; apply Qle_bool_iff.
  - apply Qle_bool_iff in H2. eapply Qle_trans; [exact H2|].
    unfold MAX_SAFE_INTEGER, Qle. simpl. lia.
  - apply Qle_bool_iff in H1. eapply Qle_trans; [|exact H1].
    unfold MAX_SAFE_INTEGER, Qle. simpl. lia.
Qed.

Lemma number_fails_clean x :
  number_fails [NMin (1 # 1); NMax (120 # 1)] x = [] <-> in_range x = true.
Proof.
  destruct x as [q| |]; cbn [number_fails in_range];
    try (split; discriminate).
  destruct (Qle_bool (1 # 1) q) eqn:E1, (Qle_bool q (120 # 1)) eqn:E2;
    cbn [andb].
  - rewrite (in_range_safe q E1 E2). cbn. rewrite E1, E2. tauto.
  - destruct (_ || _); cbn; [split; discriminate|].
    rewrite E1, E2. cbn. split; discriminate.
  - destruct (_ || _); cbn; [split; discriminate|].
    rewrite E1. cbn. split; discriminate.
  - destruct (_ || _); cbn; [split; discriminate|].
    rewrite E1. cbn. split; discriminate.
Qed.

Lemma age_value_clean k v :
  snd (validate_value (JoiNumber [NMin (1 # 1); NMax (120 # 1)]) k v) = [] <->
  age_ok v = true.
Proof.
  destruct v as [| |x|s| |]; cbn [validate_value snd age_ok];
    try (split; discriminate).
  - rewrite at_key_nil. apply number_fails_clean.
  - destruct (numberFromString s); cbn [snd]; try (split; discriminate).
    rewrite at_key_nil. apply number_fails_clean.
Qed.

Lemma flag_value_clean k v :
  snd (validate_value JoiBoolean k v) = [] <-> flag_ok v = true.
Proof.
  destruct v as [| | |s| |]; cbn [validate_value snd flag_ok];
    try (split; (reflexivity || discriminate)).
  destruct (String.eqb (toLowerCase s) "true"); [cbn; tauto|].
  destruct (String.eqb (toLowerCase s) "false"); cbn;
    split; intros H; (reflexivity || discriminate).
Qed.

Lemma hobby_errors_nil i l : hobby_errors i l = [] <-> forallb hobby_ok l = true.
Proof.
  revert i. induction l as [|item l IH]; intros i; cbn [hobby_errors forallb];
    [tauto|].
  unfold hobby_ok at 1. destruct (hobby_code item); cbn.
  - split; discriminate.
  - apply IH.
Qed.

Lemma hobbies_value_clean k v :
  snd (validate_value (JoiArray (JoiString [])) k v) = [] <->
  hobbies_ok v = true.
Proof.
  destruct v as [| | | |l|]; cbn [validate_value snd hobbies_ok];
    try (split; discriminate).
  rewrite validate_items_strings. cbn [snd]. apply hobby_errors_nil.
Qed.

Lemma required_child_clean c item (p : json -> bool) :
  required c = true ->
  (forall v, snd (validate_value (type c) (KName (name c)) v) = [] <->
             p v = true) ->
  snd (validate_child c item) = [] <-> present p item = true.
Proof.
  intros Hreq Hp. unfold validate_child. destruct item as [v|]; cbn [present].
  - specialize (Hp v). now destruct (validate_value _ _ v).
  - rewrite Hreq. cbn. split; discriminate.
Qed.

Lemma optional_child_clean c item (p : json -> bool) :
  required c = false ->
  (forall v, snd (validate_value (type c) (KName (name c)) v) = [] <->
             p v = true) ->
  snd (validate_child c item) = [] <-> optional p item = true.
Proof.
  intros Hreq Hp. unfold validate_child. destruct item as [v|]; cbn [optional].
  - specialize (Hp v). now destruct (validate_value _ _ v).
  - rewrite Hreq. cbn. tauto.
Qed.

Lemma unknown_errors_clean o :
  unknown_errors userSchema o = [] <->
  forallb (is_schema_key userSchema) (keys o) = true.
Proof.
  split.
  - intros H. apply forallb_forall. intros k Hin.
    now apply (unknown_errors_nil userSchema o).
  - intros H. rewrite forallb_forall in H. unfold unknown_errors.
    induction (keys o) as [|k ks IH]; [reflexivity|].
    cbn [filter]. rewrite (H k) by now left. cbn. apply IH.
    intros x Hx. apply H. now right.
Qed.

Lemma schema_errors_clean o :
  flat_map (fun c => child_errors c o) userSchema ++
    unknown_errors userSchema (assigned o) = [] <->
  accepts o = true.
Proof.
  unfold accepts. rewrite !andb_true_iff.
  cbn [userSchema flat_map]. unfold child_errors. cbn [name].
  rewrite app_nil_r. split.
  - intros H. apply app_eq_nil in H. destruct H as [H Hunk].
    repeat (apply app_eq_nil in H; destruct H as [? H]).
    repeat split;
      try (now apply unknown_errors_clean);
      match goal with
      | E : snd (validate_child ?c ?item) = [] |- present _ ?item = true =>
          apply (proj1 (required_child_clean c item _ eq_refl
                          ltac:(first [ exact (name_value_clean _)
                                      | exact (age_value_clean _)
                                      | exact (email_value_clean _) ])) E)
      | E : snd (validate_child ?c ?item) = [] |- optional _ ?item = true =>
          apply (proj1 (optional_child_clean c item _ eq_refl
                          ltac:(first [ exact (name_value_clean _)
                                      | exact (hobbies_value_clean _)
                                      | exact (flag_value_clean _) ])) E)
      end.
  - intros H. decompose [and] H. clear H.
    repeat match goal with
    | E : present ?p ?item = true |- context [validate_child ?c ?item] =>
        rewrite (proj2 (required_child_clean c item p eq_refl
                          ltac:(first [ exact (name_value_clean _)
                                      | exact (age_value_clean _)
                                      | exact (email_value_clean _) ])) E);
        clear E
    | E : optional ?p ?item = true |- context [validate_child ?c ?item] =>
        rewrite (proj2 (optional_child_clean c item p eq_refl
                          ltac:(first [ exact (name_value_clean _)
                                      | exact (hobbies_value_clean _)
                                      | exact (flag_value_clean _) ])) E);
        clear E
    end.
    cbn [app]. now apply unknown_errors_clean.
Qed.

(** X1.  The validation lets through exactly the object bodies whose own
    keys, [__proto__] apart, are schema keys and whose fields, read from the
    body or else from the object under its own [__proto__] key, are: string
    names of 2 to 50 units, an age between 1 and 120 given as a number or as
    a string that converts to one, an e-mail address, and, when present, a
    city of 2 to 50 units, hobbies that are an array of non-empty strings,
    and an [isActive] that is a boolean or the text "true" / "false" in any
    letter case; a parsed body that is not an object is never let
    through. *)
Theorem validate_accepts_exactly :
  forall body : json,
    (exists value, validate body = Valid value) <->
    (exists o, body = JObj o /\ accepts o = true).
Proof.
  intros body. split.
  - intros [value Hv]. apply validate_Valid in Hv.
    destruct Hv as (o & -> & _ & Herr & Hunk).
    exists o. split; [reflexivity|]. apply schema_errors_clean.
    now rewrite Herr, Hunk.
  - intros (o & -> & Hacc). apply schema_errors_clean in Hacc.
    unfold validate. rewrite (validate_keys_spec userSchema o userSchema_names).
    rewrite Hacc. eauto.
Qed.

End AcceptanceFacts.

(** ** What a validated value looks like *)

Section Normalisation.
Context {lib : JoiLib}.
Import Obj ObjFacts.

Lemma string_value_kept rules k v :
  fst (validate_value (JoiString rules) k v) = v.
Proof. destruct v as [| | |s| |]; try reflexivity. now destruct s. Qed.

Lemma hobbies_value_kept k v :
  fst (validate_value (JoiArray (JoiString [])) k v) = v.
Proof.
  destruct v as [| | | |l|]; try reflexivity.
  cbn [validate_value]. now rewrite validate_items_strings.
Qed.

Lemma age_value_converted k v :
  age_ok v = true ->
  number_in_range
    (fst (validate_value (JoiNumber [NMin (1 # 1); NMax (120 # 1)]) k v)) = true.
Proof.
  destruct v as [| |x|s| |]; cbn [age_ok validate_value fst]; try discriminate.
  - trivial.
  - destruct (numberFromString s); try discriminate. trivial.
Qed.

Lemma flag_value_converted k v :
  flag_ok v = true -> is_boolean (fst (validate_value JoiBoolean k v)) = true.
Proof.
  destruct v as [| | |s| |]; cbn [flag_ok validate_value fst]; try discriminate.
  - trivial.
  - destruct (String.eqb (toLowerCase s) "true"); [trivial|].
    destruct (String.eqb (toLowerCase s) "false"); [trivial | discriminate].
Qed.

(** The validated value at the key of the schema child [c]. *)
Lemma validated_at c o :
  In c userSchema ->
  get (name c) (fold_left (write_back o) userSchema (assigned o)) =
  match body_field (name c) o with
  | Some v => Some (fst (validate_value (type c) (KName (name c)) v))
  | None => if required c then None else default c
  end.
Proof.
  intros Hin.
  rewrite (validated_get o c userSchema (assigned o) userSchema_names Hin).
  unfold validate_child. destruct (body_field (name c) o) as [v|] eqn:B.
  - now destruct (validate_value (type c) (KName (name c)) v).
  - rewrite (body_field_none _ _ B).
    destruct (required c); cbn; [reflexivity|]. now destruct (default c).
Qed.

Lemma validated_keys_schema o :
  forallb (is_schema_key userSchema) (keys (assigned o)) = true ->
  forallb (is_schema_key userSchema)
    (keys (fold_left (write_back o) userSchema (assigned o))) = true.
Proof.
  intros H. rewrite forallb_forall in *. intros k Hk.
  apply validated_keys in Hk. destruct Hk as [Hk|Hk]; auto.
Qed.

Lemma accepts_normal o :
  accepts o = true ->
  normal (fold_left (write_back o) userSchema (assigned o)) = true.
Proof.
  unfold accepts, normal. rewrite !andb_true_iff.
  intros [[[[[[[Hk H1] H2] H3] H4] H5] H6] H7].
  pose proof (fun c H => validated_at c o H) as G.
  pose proof (G _ (or_introl eq_refl)) as G1.
  pose proof (G _ (or_intror (or_introl eq_refl))) as G2.
  pose proof (G _ (or_intror (or_intror (or_introl eq_refl)))) as G3.
  pose proof (G _ (or_intror (or_intror (or_intror (or_introl eq_refl))))) as G4.
  pose proof (G _ (or_intror (or_intror (or_intror (or_intror
                     (or_introl eq_refl)))))) as G5.
  pose proof (G _ (or_intror (or_intror (or_intror (or_intror (or_intror
                     (or_introl eq_refl))))))) as G6.
  pose proof (G _ (or_intror (or_intror (or_intror (or_intror (or_intror
                     (or_intror (or_introl eq_refl)))))))) as G7.
  clear G. cbn [name type required default] in *.
  rewrite G1, G2, G3, G4, G5, G6, G7.
  repeat split.
  - now apply validated_keys_schema.
  - destruct (body_field "firstName" o); [|discriminate].
    cbn [present] in *. now rewrite string_value_kept.
  - destruct (body_field "lastName" o); [|discriminate].
    cbn [present] in *. now rewrite string_value_kept.
  - destruct (body_field "age" o); [|discriminate].
    cbn [present] in *. now apply age_value_converted.
  - destruct (body_field "email" o); [|discriminate].
    cbn [present] in *. now rewrite string_value_kept.
  - destruct (body_field "city" o); [|reflexivity].
    cbn [optional] in *. now rewrite string_value_kept.
  - destruct (body_field "hobbies" o); [|reflexivity].
    cbn [present optional] in *. now rewrite hobbies_value_kept.
  - destruct (body_field "isActive" o); [|reflexivity].
    cbn [present optional] in *. now apply flag_value_converted.
Qed.


(** A validated value has no [__proto__] key: it is its own copy. *)
Lemma normal_plain value : normal value = true -> get "__proto__" value = None.
Proof.
  unfold normal. rewrite !andb_true_iff.
  intros [[[[[[[Hk _] _] _] _] _] _] _]. apply get_none_iff. intros Hin.
  rewrite forallb_forall in Hk. now specialize (Hk _ Hin).
Qed.

Lemma normal_accepts value : normal value = true -> accepts value = true.
Proof.
  intros Hn. pose proof (normal_plain value Hn) as Hp. revert Hn.
  unfold accepts, normal. rewrite !(body_field_plain _ value Hp).
  rewrite (assigned_plain value Hp). rewrite !andb_true_iff.
  intros [[[[[[[Hk H1] H2] H3] H4] H5] H6] H7]. repeat split; try assumption.
  - destruct (get "age" value) as [[| |x| | |]|]; try discriminate. exact H3.
  - destruct (get "hobbies" value); [exact H6 | reflexivity].
  - destruct (get "isActive" value) as [[| | | | |]|]; try discriminate.
    reflexivity.
Qed.

Lemma write_back_normal value acc c :
  In c userSchema -> normal value = true ->
  get (name c) acc = get (name c) value ->
  write_back value acc c = acc.
Proof.
  intros Hin Hn Hacc. unfold write_back, validate_child.
  rewrite (body_field_plain _ value (normal_plain value Hn)).
  destruct (get (name c) value) as [v|] eqn:G.
  - assert (Hkept : fst (validate_value (type c) (KName (name c)) v) = v).
    { unfold normal in Hn. rewrite !andb_true_iff in Hn.
      destruct Hn as [[[[[[[Hk H1] H2] H3] H4] H5] H6] H7].
      simpl in Hin.
      destruct Hin as [<-|[<-|[<-|[<-|[<-|[<-|[<-|[]]]]]]]];
        cbn [name type] in *;
        try apply string_value_kept; try apply hobbies_value_kept.
      - rewrite G in H3. cbn in H3. now destruct v.
      - rewrite G in H7. cbn in H7. now destruct v. }
    destruct (validate_value (type c) (KName (name c)) v) as [v' errs].
    cbn [fst] in *. subst v'. apply set_same_value. now rewrite Hacc.
  - unfold normal in Hn. rewrite !andb_true_iff in Hn.
    destruct Hn as [[[[[[[Hk H1] H2] H3] H4] H5] H6] H7].
    simpl in Hin.
    destruct Hin as [<-|[<-|[<-|[<-|[<-|[<-|[<-|[]]]]]]]];
      cbn [name required default fst] in *;
      try reflexivity;
      match goal with
      | E : get ?k value = None, H : present _ (get ?k value) = true |- _ =>
          rewrite E in H; discriminate H
      end.
Qed.

Lemma fold_write_back_normal value :
  normal value = true -> fold_left (write_back value) userSchema value = value.
Proof.
  intros Hn.
  assert (G : forall cs, incl cs userSchema ->
                         fold_left (write_back value) cs value = value).
  { induction cs as [|c cs IH]; intros Hincl; [reflexivity|].
    cbn [fold_left]. rewrite write_back_normal; auto.
    - apply IH. intros x Hx. apply Hincl. now right.
    - apply Hincl. now left. }
  apply G. apply incl_refl.
Qed.

(** X3.  Validation is idempotent: the value that a successful validation
    returns passes validation again and comes back unchanged, so sending a
    validated value as a body converts and adds nothing further. *)
Theorem validate_idempotent :
  forall (body : json) (value : obj),
    validate body = Valid value -> validate (JObj value) = Valid value.
Proof.
  intros body value Hv.
  assert (Hn : normal value = true).
  { destruct (validate_Valid body value Hv) as (o & _ & -> & Herr & Hunk).
    apply accepts_normal. apply schema_errors_clean. now rewrite Herr, Hunk. }
  pose proof (normal_accepts value Hn) as Hacc.
  apply schema_errors_clean in Hacc.
  unfold validate.
  rewrite (validate_keys_spec userSchema value userSchema_names), Hacc.
  rewrite (assigned_plain value (normal_plain value Hn)).
  now rewrite fold_write_back_normal.
Qed.

End Normalisation.


Lemma validate_idempotent_witness :
  @validate sample_lib (JObj ann_validated) = Valid ann_validated.
Proof.
  exact (@validate_idempotent sample_lib (JObj ann_fields) ann_validated
           eq_refl).
Defined.

(** ** Partial update *)

Section PartialUpdate.
Context {lib : JoiLib}.
Import Obj ObjFacts.

Lemma valid_body_keys o value k :
  validate (JObj o) = Valid value -> In k (keys o) -> k <> "__proto__" ->
  is_schema_key userSchema k = true.
Proof.
  intros Hv Hin Hne. apply validate_Valid in Hv.
  destruct Hv as (o' & Ho & _ & _ & Hunk). injection Ho as <-.
  apply (unknown_errors_nil userSchema (assigned o) Hunk).
  apply in_keys_assigned. now split.
Qed.

Lemma valid_body_no_stamp o value k :
  validate (JObj o) = Valid value -> is_stamp k = true -> get k o = None.
Proof.
  intros Hv Hs. apply get_none_iff. intros Hin.
  assert (Hne : k <> "__proto__") by (intros ->; discriminate Hs).
  apply stamp_not_schema_key in Hs.
  rewrite (valid_body_keys o value k Hv Hin Hne) in Hs. discriminate.
Qed.

Lemma patch_user_run id now o value users i :
  validate (JObj o) = Valid value ->
  findIndex (id_is id) users = Return (Some i) ->
  let updated := JObj (updated_user (nth i users JNull) o now) in
  patch_user id now (JObj o) (stored users) =
  (json_ok (Success updated), stored (store_at i updated users)).
Proof.
  intros Hv Hf. unfold patch_user, guarded. cbn -[validate]. unfold lift.
  rewrite Hf, Hv. reflexivity.
Qed.

(** X4.  A PATCH whose body passes the schema and whose id is found answers
    200 and persists the stored record with the request body's own fields
    written over it: [id] and [createdAt] stay, [updatedAt] is the time of
    the request, every field of the body is stored as the body gave it, and
    every field the body lacks keeps its stored value. *)
Theorem patch_merges_raw_body :
  forall (id now : string) (o value : obj) (users : list json) (i : nat),
    distinct_keys o = true ->
    validate (JObj o) = Valid value ->
    findIndex (id_is id) users = Return (Some i) ->
    let existing := nth i users JNull in
    let updated := updated_user existing o now in
    patch_user id now (JObj o) (stored users) =
      (json_ok (Success (JObj updated)),
       stored (store_at i (JObj updated) users)) /\
    get "id" updated = Some (JStr id) /\
    get "createdAt" updated = get "createdAt" (props existing) /\
    get "updatedAt" updated = Some (JStr now) /\
    (forall k v, get k o = Some v -> get k updated = Some v) /\
    (forall k, k <> "updatedAt" -> get k o = None ->
               get k updated = get k (props existing)).
Proof.
  intros id now o value users i Hd Hv Hf existing updated.
  assert (Hrest : forall k, k <> "updatedAt" -> get k o = None ->
                            get k updated = get k (props existing)).
  { intros k Hne Hk. unfold updated. rewrite updated_user_get by assumption.
    apply String.eqb_neq in Hne. now rewrite Hne, Hk. }
  split; [now apply (patch_user_run id now o value)|].
  split.
  { rewrite Hrest; [now apply located_id | discriminate |].
    now apply (valid_body_no_stamp o value). }
  split.
  { apply Hrest; [discriminate|]. now apply (valid_body_no_stamp o value). }
  split; [apply get_set_same|].
  split; [|exact Hrest].
  intros k v Hk. unfold updated. rewrite updated_user_get by assumption.
  rewrite Hk. destruct (String.eqb k "updatedAt") eqn:E; [|reflexivity].
  apply String.eqb_eq in E. subst k.
  rewrite (valid_body_no_stamp o value "updatedAt" Hv eq_refl) in Hk.
  discriminate.
Qed.

(** X5.  An age written as text passes the schema because the validation
    converts it, but only the full update stores the converted value: for
    the same body and the same located record, PUT persists a number
    between 1 and 120 and PATCH persists the text. *)
Theorem patch_stores_unconverted_age :
  forall (id now s : string) (o value : obj) (users : list json) (i : nat),
    distinct_keys o = true ->
    validate (JObj o) = Valid value ->
    findIndex (id_is id) users = Return (Some i) ->
    get "age" o = Some (JStr s) ->
    (exists put,
       snd (update_user id now (JObj o) (stored users)) =
         stored (store_at i (JObj put) users) /\
       present number_in_range (get "age" put) = true) /\
    (exists patched,
       snd (patch_user id now (JObj o) (stored users)) =
         stored (store_at i (JObj patched) users) /\
       get "age" patched = Some (JStr s)).
Proof.
  intros id now s o value users i Hd Hv Hf Hage. split.
  - exists (updated_user (nth i users JNull) value now). split.
    + now rewrite (update_user_run id now (JObj o) value users i Hv Hf).
    + pose proof (valid_distinct o value Hd Hv) as Hdv.
      assert (Hn : normal value = true).
      { destruct (validate_Valid (JObj o) value Hv)
          as (o' & _ & -> & Herr & Hunk).
        apply accepts_normal. apply schema_errors_clean.
        now rewrite Herr, Hunk. }
      unfold normal in Hn. rewrite !andb_true_iff in Hn.
      destruct Hn as [[[[[[[_ _] _] H3] _] _] _] _].
      destruct (get "age" value) as [v|] eqn:G; [|discriminate].
      now rewrite (updated_user_takes_body (JObj o) value _ now "age" v Hv Hdv G).
  - exists (updated_user (nth i users JNull) o now). split.
    + now rewrite (patch_user_run id now o value users i Hv Hf).
    + rewrite updated_user_get by assumption. now rewrite Hage.
Qed.

End PartialUpdate.

Lemma patch_merges_raw_body_witness :
  @patch_user sample_lib id_ann "2024-06-30T12:00:00.000Z" (JObj ann_texts)
    (stored [paris_record]) =
  (json_ok (Success (JObj (updated_user paris_record ann_texts
                             "2024-06-30T12:00:00.000Z"))),
   stored [JObj (updated_user paris_record ann_texts
                   "2024-06-30T12:00:00.000Z")]).
Proof.
  exact (proj1 (@patch_merges_raw_body sample_lib id_ann
                  "2024-06-30T12:00:00.000Z" ann_texts ann_texts_validated
                  [paris_record] 0 eq_refl eq_refl eq_refl)).
Defined.

Lemma patch_stores_unconverted_age_witness :
  exists patched,
    snd (@patch_user sample_lib id_ann "2024-06-30T12:00:00.000Z"
           (JObj ann_texts) (stored [paris_record])) =
      stored (store_at 0 (JObj patched) [paris_record]) /\
    Obj.get "age" patched = Some (JStr "30").
Proof.
  exact (proj2 (@patch_stores_unconverted_age sample_lib id_ann
                  "2024-06-30T12:00:00.000Z" "30" ann_texts
                  ann_texts_validated [paris_record] 0
                  eq_refl eq_refl eq_refl eq_refl)).
Defined.

(** ** Answers other than success *)

Lemma findIndex_none_find p l :
  findIndex p l = Return None -> find p l = Return None.
Proof.
  induction l as [|u l IH]; simpl; [reflexivity|].
  destruct (p u) as [[|]|]; simpl; try discriminate.
  destruct (findIndex p l) as [[j|]|]; simpl; try discriminate.
  intros _. now apply IH.
Qed.

Lemma readUsersFile_holding users w :
  readUsersFile (holding users w) = (Return users, holding users w).
Proof. reflexivity. Qed.

Lemma readUsersFile_throws_in_place d e d' :
  readUsersFile d = (Throw e, d') -> d' = d.
Proof.
  unfold readUsersFile, try_catch, readFile. cbn.
  destruct d as [f w]. cbn. destruct f as [|c|[users|]|[users|] c]; cbn.
  - destruct w; cbn; intros H; now injection H.
  - destruct (String.eqb c "ENOENT"); cbn.
    + destruct w; cbn; intros H; now injection H.
    + intros H; now injection H.
  - discriminate.
  - intros H; now injection H.
  - discriminate.
  - intros H; now injection H.
Qed.

Section Failures.
Context {lib : JoiLib}.

(** X6.  When no stored record carries the id, GET, DELETE and PATCH answer
    404 and leave the file as it is, and so does PUT once its body has
    passed validation.  PATCH looks the id up before it validates, so it
    answers 404 whatever the body is. *)
Theorem unknown_id_not_found :
  forall (id now : string) (body : json) (users : list json)
         (w : option string),
    findIndex (id_is id) users = Return None ->
    let d := holding users w in
    get_user id d = (not_found, d) /\
    delete_user id d = (not_found, d) /\
    patch_user id now body d = (not_found, d) /\
    (forall value, validate body = Valid value ->
                   update_user id now body d = (not_found, d)).
Proof.
  intros id now body users w Hf d. repeat split.
  - unfold get_user, guarded. cbn. unfold lift.
    now rewrite (findIndex_none_find _ _ Hf).
  - unfold delete_user, guarded. cbn. unfold lift. now rewrite Hf.
  - unfold patch_user, guarded. cbn -[validate]. unfold lift. now rewrite Hf.
  - intros value Hv. unfold update_user, validateUserData. rewrite Hv.
    unfold guarded. cbn. unfold lift. now rewrite Hf.
Qed.

(** X7.  When writing the file fails, a request that passed every check is
    answered 500 with the message of its route.  If the open fails, the file
    keeps the collection it had.  If the write is cut short after the open,
    the collection is lost: the file is left with text that does not parse,
    and from then on the list and the lookup answer 500. *)
Theorem write_failure_answers_500 :
  forall (id new_id t1 t2 now code : string) (body : json) (value : obj)
         (users : list json) (i : nat),
    validate body = Valid value ->
    findIndex (id_is id) users = Return (Some i) ->
    (let d := holding users (Some code) in
     create_user new_id t1 t2 body d =
       ({| status := 500; body := Failure create_failed |}, d) /\
     update_user id now body d =
       ({| status := 500; body := Failure update_failed |}, d) /\
     patch_user id now body d =
       ({| status := 500; body := Failure patch_failed |}, d) /\
     delete_user id d =
       ({| status := 500; body := Failure delete_failed |}, d)) /\
    (let d := {| users_json := Fragile (Encoded users) code;
                 write_error := None |} in
     let cut := {| users_json := Fragile Garbage code;
                   write_error := None |} in
     create_user new_id t1 t2 body d =
       ({| status := 500; body := Failure create_failed |}, cut) /\
     update_user id now body d =
       ({| status := 500; body := Failure update_failed |}, cut) /\
     patch_user id now body d =
       ({| status := 500; body := Failure patch_failed |}, cut) /\
     delete_user id d =
       ({| status := 500; body := Failure delete_failed |}, cut) /\
     (forall q city isActive,
        list_query q city isActive cut =
          ({| status := 500; body := Failure list_failed |}, cut)) /\
     (forall id',
        get_user id' cut =
          ({| status := 500; body := Failure get_failed |}, cut))).
Proof.
  intros id new_id t1 t2 now code body value users i Hv Hf. split.
  - intros d. repeat split.
    + unfold create_user, validateUserData. rewrite Hv. reflexivity.
    + unfold update_user, validateUserData. rewrite Hv.
      unfold guarded. cbn. unfold lift. now rewrite Hf.
    + unfold patch_user, guarded. cbn -[validate]. unfold lift.
      now rewrite Hf, Hv.
    + unfold delete_user, guarded. cbn. unfold lift. now rewrite Hf.
  - intros d cut. repeat split.
    + unfold create_user, validateUserData. rewrite Hv. reflexivity.
    + unfold update_user, validateUserData. rewrite Hv.
      unfold guarded. cbn. unfold lift. now rewrite Hf.
    + unfold patch_user, guarded. cbn -[validate]. unfold lift.
      now rewrite Hf, Hv.
    + unfold delete_user, guarded. cbn. unfold lift. now rewrite Hf.
Qed.


End Failures.

(** X9.  The two GET routes never change a file that exists, whatever it
    holds and whatever they answer.  On a missing file that can be written
    they create it with the empty collection: the list route then answers
    200 with no record and the single-record route answers 404. *)
Theorem get_routes_only_create_the_file :
  forall (q city isActive : option string) (id : string),
    (forall (t : text) (w : option string),
       let d := {| users_json := Holds t; write_error := w |} in
       snd (list_users q city isActive d) = d /\ snd (get_user id d) = d) /\
    (let missing := {| users_json := Absent; write_error := None |} in
     list_users q city isActive missing = (listing [], stored []) /\
     get_user id missing = (not_found, stored [])).
Proof.
  intros q city isActive id. split.
  - intros t w d. unfold d, list_users, get_user. rewrite !guarded_snd.
    destruct t as [users|]; cbn; [|split; reflexivity].
    unfold lift. split.
    + now destruct (_ : outcome (list json)).
    + destruct (find (id_is id) users) as [[u|]|e]; try reflexivity.
      now destruct (truthy (Some u)).
  - cbn. unfold list_users, get_user, guarded. cbn. unfold lift, filter_when.
    split; [|reflexivity].
    destruct (supplied q), (supplied city), (supplied isActive); reflexivity.
Qed.

Lemma unknown_id_not_found_witness :
  get_user id_new (stored [paris_record]) = (not_found, stored [paris_record]).
Proof.
  exact (proj1 (@unknown_id_not_found sample_lib id_new
                  "2024-06-30T12:00:00.000Z" JNull [paris_record] None
                  eq_refl)).
Defined.

Lemma write_failure_answers_500_witness :
  @update_user sample_lib id_ann "2024-06-30T12:00:00.000Z" (JObj ann_fields)
    {| users_json := Fragile (Encoded [paris_record]) "ENOSPC";
       write_error := None |} =
  ({| status := 500; body := Failure update_failed |},
   {| users_json := Fragile Garbage "ENOSPC"; write_error := None |}).
Proof.
  exact (proj1 (proj2 (proj2
           (@write_failure_answers_500 sample_lib id_ann id_new
              "2024-06-30T12:00:00.000Z" "2024-06-30T12:00:00.000Z"
              "2024-06-30T12:00:00.000Z" "ENOSPC" (JObj ann_fields)
              ann_validated [paris_record] 0 eq_refl eq_refl)))).
Defined.


(** ** Listing, at the edges *)

(** X10.  With no query parameter, or with parameters that are all the
    empty text, the list route returns the whole stored sequence in its
    stored order, whether or not the elements are records: no callback
    runs, so nothing can throw.  The elements are taken free of infinite
    numbers, which the answer would show as [null]. *)
Theorem list_without_filters_returns_all :
  forall (q city isActive : option param) (users : list json)
         (w : option string),
    given q = None -> given city = None -> given isActive = None ->
    forallb finite users = true ->
    list_query q city isActive (holding users w) =
    (listing users, holding users w).
Proof.
  intros q city isActive users w Hq Hc Ha _.
  unfold list_query, guarded. cbn -[given]. unfold lift.
  now rewrite Hq, Hc, Ha.
Qed.

Lemma filterM_throws p l u e :
  In u l -> p u = Throw e -> exists e', filterM p l = Throw e'.
Proof.
  induction l as [|v l IH]; intros Hin Hu; [destruct Hin|].
  cbn [filterM]. destruct Hin as [->|Hin].
  - rewrite Hu. cbn. eauto.
  - destruct (p v) as [keep|e0]; cbn; [|eauto].
    destruct (IH Hin Hu) as [e' ->]. cbn. eauto.
Qed.

Lemma filter_when_null param callback l :
  (forall v, callback v JNull = Throw TypeError) ->
  In JNull l ->
  match supplied param with
  | Some _ => exists e, filter_when param callback l = Throw e
  | None => filter_when param callback l = Return l
  end.
Proof.
  intros Hcb Hin. unfold filter_when. destruct (supplied param) as [v|].
  - apply (filterM_throws (callback v) l JNull TypeError Hin (Hcb v)).
  - reflexivity.
Qed.

(** X11.  A [null] among the stored elements makes the list route answer
    500 as soon as one filter is supplied, since every filter callback reads
    a property of every element it is given; the file is left as it is. *)
Theorem list_null_element_500 :
  forall (q city isActive : option string) (users : list json)
         (w : option string),
    In JNull users ->
    (supplied q <> None \/ supplied city <> None \/ supplied isActive <> None) ->
    list_users q city isActive (holding users w) =
    ({| status := 500; body := Failure list_failed |}, holding users w).
Proof.
  intros q city isActive users w Hin Hsome.
  unfold list_users, guarded. cbn -[filter_when]. unfold lift.
  pose proof (filter_when_null q (fun q => q_callback (toLowerCase q)) users
                (fun v => eq_refl) Hin) as Hq.
  destruct (supplied q) as [vq|] eqn:Eq.
  { destruct Hq as [e ->]. reflexivity. }
  rewrite Hq. cbn -[filter_when].
  pose proof (filter_when_null city city_callback users
                (fun v => eq_refl) Hin) as Hc.
  destruct (supplied city) as [vc|] eqn:Ec.
  { destruct Hc as [e ->]. reflexivity. }
  rewrite Hc. cbn -[filter_when].
  pose proof (filter_when_null isActive isActive_callback users
                (fun v => eq_refl) Hin) as Ha.
  destruct (supplied isActive) as [va|] eqn:Ea.
  { destruct Ha as [e ->]. reflexivity. }
  exfalso. destruct Hsome as [H|[H|H]]; now apply H.
Qed.

Lemma list_without_filters_returns_all_witness :
  list_query (Some (Text "")) None None (stored [JNull; paris_record]) =
  (listing [JNull; paris_record], stored [JNull; paris_record]).
Proof.
  exact (list_without_filters_returns_all (Some (Text "")) None None
           [JNull; paris_record] None eq_refl eq_refl eq_refl eq_refl).
Defined.

Lemma list_null_element_500_witness :
  list_users None (Some "Paris") None (stored [paris_record; JNull]) =
  ({| status := 500; body := Failure list_failed |},
   stored [paris_record; JNull]).
Proof.
  apply (list_null_element_500 None (Some "Paris") None
           [paris_record; JNull] None).
  - simpl. tauto.
  - right. left. discriminate.
Defined.

(** ** Writes followed by reads *)

Section WriteThenRead.
Context {lib : JoiLib}.
Import Obj ObjFacts.

Lemma set_absent k v o : get k o = None -> set k v o = o ++ [(k, v)].
Proof.
  induction o as [|[k' v'] o IH]; simpl; [reflexivity|].
  destruct (String.eqb k k'); [discriminate|]. intros H. now rewrite IH.
Qed.

Lemma get_app k o o' :
  get k (o ++ o') = match get k o with
                    | Some v => Some v
                    | None => get k o'
                    end.
Proof.
  induction o as [|[k' v'] o IH]; simpl; [reflexivity|].
  now destruct (String.eqb k k').
Qed.

Lemma spread_absent o src :
  distinct_keys src = true ->
  (forall k, In k (keys src) -> get k o = None) ->
  spread o src = o ++ src.
Proof.
  unfold spread, distinct_keys. rewrite distinct_NoDup. revert o.
  induction src as [|[k v] src IH]; intros o Hnd Hfree; simpl.
  - now rewrite app_nil_r.
  - inversion Hnd as [|? ? Hnin Hnd']; subst.
    rewrite set_absent by (apply Hfree; now left).
    rewrite IH; [now rewrite <- app_assoc | assumption |].
    intros k' Hk'. rewrite get_app, (Hfree k') by now right.
    cbn. destruct (String.eqb k' k) eqn:E; [|reflexivity].
    apply String.eqb_eq in E. subst k'. contradiction.
Qed.

(** The record of the create handler, written out. *)
Lemma new_user_layout id value t1 t2 :
  distinct_keys value = true ->
  (forall k, is_stamp k = true -> get k value = None) ->
  new_user id value t1 t2 =
  ("id", JStr id) :: value ++
    [("createdAt", JStr t1); ("updatedAt", JStr t2)].
Proof.
  intros Hd Hfree. unfold new_user.
  rewrite spread_absent; [|assumption|].
  2:{ intros k Hk. cbn. destruct (String.eqb k "id") eqn:E; [|reflexivity].
      apply String.eqb_eq in E. subst k. apply get_none_iff in Hk; [easy|].
      now apply Hfree. }
  cbn [app]. rewrite (set_absent "createdAt").
  2:{ cbn. now apply Hfree. }
  rewrite (set_absent "updatedAt").
  2:{ cbn. rewrite get_app, (Hfree "updatedAt") by reflexivity.
      reflexivity. }
  cbn. now rewrite <- app_assoc.
Qed.

(** X12.  A create request with a valid body appends one record at the end
    of the collection, and the record lists [id] first, then the validated
    fields in their order, then [createdAt] and [updatedAt]; an unfiltered
    list request that follows returns the old records in their order
    followed by the new one. *)
Theorem create_then_list :
  forall (id t1 t2 : string) (o value : obj) (users : list json),
    distinct_keys o = true ->
    validate (JObj o) = Valid value ->
    let created :=
      ("id", JStr id) :: value ++
        [("createdAt", JStr t1); ("updatedAt", JStr t2)] in
    let after := snd (create_user id t1 t2 (JObj o) (stored users)) in
    fst (create_user id t1 t2 (JObj o) (stored users)) =
      {| status := 201; body := Success (JObj created) |} /\
    list_users None None None after =
      (listing (users ++ [JObj created]), stored (users ++ [JObj created])).
Proof.
  intros id t1 t2 o value users Hd Hv created after.
  assert (Hlay : new_user id value t1 t2 = created).
  { apply new_user_layout; [now apply (valid_distinct o)|].
    intros k Hk. apply get_none_iff. now apply (valid_no_stamp (JObj o)). }
  unfold after. rewrite (create_user_run id t1 t2 (JObj o) value users Hv).
  cbn [fst snd]. rewrite Hlay. split; reflexivity.
Qed.

Lemma find_at p l1 u l2 :
  Forall (fun v => p v = Return false) l1 -> p u = Return true ->
  find p (l1 ++ u :: l2) = Return (Some u).
Proof.
  intros Hl1 Hu. induction Hl1 as [|v l1 Hv _ IH]; simpl.
  - now rewrite Hu.
  - now rewrite Hv.
Qed.

Lemma find_after_store id users i r :
  findIndex (id_is id) users = Return (Some i) ->
  get "id" r = Some (JStr id) ->
  find (id_is id) (store_at i (JObj r) users) = Return (Some (JObj r)).
Proof.
  intros Hf Hid. apply findIndex_split in Hf.
  destruct Hf as (l1 & u & l2 & -> & <- & _ & Hl1).
  rewrite store_at_middle. apply find_at; [assumption|].
  rewrite id_is_object, Hid. simpl. now rewrite String.eqb_refl.
Qed.

Lemma merged_id existing data now :
  get "id" data = None ->
  get "id" (updated_user existing data now) = get "id" (props existing).
Proof.
  intros H. unfold updated_user. rewrite get_set_other by discriminate.
  apply get_spread_notin. now apply get_none_iff.
Qed.


End WriteThenRead.

Lemma create_then_list_witness :
  fst (@create_user sample_lib id_new "2024-06-30T12:00:00.000Z"
         "2024-06-30T12:00:00.001Z" (JObj ann_fields) (stored [paris_record])) =
  {| status := 201;
     body := Success (JObj (("id", JStr id_new) :: ann_validated ++
                [("createdAt", JStr "2024-06-30T12:00:00.000Z");
                 ("updatedAt", JStr "2024-06-30T12:00:00.001Z")])) |}.
Proof.
  exact (proj1 (@create_then_list sample_lib id_new "2024-06-30T12:00:00.000Z"
                  "2024-06-30T12:00:00.001Z" ann_fields ann_validated
                  [paris_record] eq_refl eq_refl)).
Defined.


(** ** One request at a time *)

Lemma reads_in_place q city isActive id t w :
  let d := {| users_json := Holds t; write_error := w |} in
  snd (list_users q city isActive d) = d /\ snd (get_user id d) = d.
Proof.
  intros d. unfold d, list_users, get_user. rewrite !guarded_snd.
  destruct t as [users|]; cbn; [|split; reflexivity].
  unfold lift. split.
  - now destruct (_ : outcome (list json)).
  - destruct (find (id_is id) users) as [[u|]|e]; try reflexivity.
    now destruct (truthy (Some u)).
Qed.

Lemma list_query_in_place q city isActive t w :
  let d := {| users_json := Holds t; write_error := w |} in
  snd (list_query q city isActive d) = d.
Proof.
  intros d. unfold d, list_query. rewrite guarded_snd.
  destruct t as [users|]; cbn; [|reflexivity].
  unfold lift. now destruct (_ : outcome (list json)).
Qed.

Section Effects.
Context {lib : JoiLib}.
Import Obj ObjFacts.

(** On a file that holds a collection and takes writes, a request leaves
    such a file, and what it did to the collection is one of the effects. *)
Lemma serve_effect a r users :
  exists users',
    snd (serve a r (stored users)) = stored users' /\ effect a r users users'.
Proof.
  destruct r as [q city isActive|id|body|id body|id body|id| |]; cbn [serve].
  - exists users. split; [|constructor].
    apply (list_query_in_place q city isActive (Encoded users) None).
  - exists users. split; [|constructor].
    apply (proj2 (reads_in_place None None None id (Encoded users) None)).
  - unfold create_user, validateUserData.
    destruct (validate body) as [value|details] eqn:Hv.
    + eexists. split; [reflexivity|]. constructor.
      apply new_user_id. apply get_none_iff.
      now apply (valid_no_stamp body).
    + exists users. split; [reflexivity | constructor].
  - unfold update_user, validateUserData.
    destruct (validate body) as [value|details] eqn:Hv;
      [|exists users; split; [reflexivity | constructor]].
    unfold guarded. cbn. unfold lift.
    destruct (findIndex (id_is id) users) as [[i|]|e] eqn:Hf;
      try (exists users; split; [reflexivity | constructor]).
    eexists. split; [reflexivity|]. constructor; [assumption|].
    rewrite merged_id; [now apply located_id|].
    apply get_none_iff. now apply (valid_no_stamp body).
  - unfold patch_user, guarded. cbn -[validate]. unfold lift.
    destruct (findIndex (id_is id) users) as [[i|]|e] eqn:Hf;
      try (exists users; split; [reflexivity | constructor]).
    destruct (validate body) as [value|details] eqn:Hv;
      [|exists users; split; [reflexivity | constructor]].
    eexists. split; [reflexivity|]. constructor; [assumption|].
    rewrite merged_id; [now apply located_id|].
    destruct (validate_Valid body value Hv) as (o & -> & _).
    now apply (valid_body_no_stamp o value).
  - unfold delete_user, guarded. cbn. unfold lift.
    destruct (findIndex (id_is id) users) as [[i|]|e] eqn:Hf;
      try (exists users; split; [reflexivity | constructor]).
    eexists. split; [reflexivity|]. now constructor.
  - exists users. split; [reflexivity | constructor].
  - exists users. split; [reflexivity | constructor].
Qed.

End Effects.

Lemma get_user_by_find id l l' :
  find (id_is id) l' = find (id_is id) l ->
  fst (get_user id (stored l')) = fst (get_user id (stored l)).
Proof.
  intros H. unfold get_user, guarded. cbn. unfold lift. rewrite H.
  destruct (find (id_is id) l) as [[u|]|e]; try reflexivity.
  now destruct (truthy (Some u)).
Qed.

Lemma id_is_carrier id' o id :
  Obj.get "id" o = Some (JStr id) -> id <> id' ->
  id_is id' (JObj o) = Return false.
Proof.
  intros Hid Hne. rewrite id_is_object, Hid. simpl.
  apply String.eqb_neq in Hne. now rewrite Hne.
Qed.

Lemma id_is_other id id' u :
  id_is id u = Return true -> id <> id' -> id_is id' u = Return false.
Proof.
  intros Hu Hne. apply id_is_true in Hu. destruct Hu as (o & -> & Hid).
  now apply (id_is_carrier id' o id).
Qed.

Section FindFacts.
Variable p : json -> outcome bool.

Lemma find_replace l1 old new l2 :
  p old = Return false -> p new = Return false ->
  find p (l1 ++ new :: l2) = find p (l1 ++ old :: l2).
Proof.
  intros Ho Hn. induction l1 as [|v l1 IH]; simpl.
  - now rewrite Ho, Hn.
  - now rewrite IH.
Qed.

Lemma find_remove l1 old l2 :
  p old = Return false -> find p (l1 ++ l2) = find p (l1 ++ old :: l2).
Proof.
  intros Ho. induction l1 as [|v l1 IH]; simpl.
  - now rewrite Ho.
  - now rewrite IH.
Qed.

Lemma find_append l new :
  p new = Return false -> find p (l ++ [new]) = find p l.
Proof.
  intros Hn. induction l as [|v l IH]; simpl.
  - now rewrite Hn.
  - now rewrite IH.
Qed.

End FindFacts.

Lemma effect_keeps_other_ids a r users users' id :
  effect a r users users' -> target a r <> Some id ->
  find (id_is id) users' = find (id_is id) users.
Proof.
  intros Heff Hne.
  destruct Heff as [r users|body users rec Hrec|id0 body users i rec Hf Hrec
                   |id0 body users i rec Hf Hrec|id0 users i Hf];
    cbn [target] in Hne.
  - reflexivity.
  - apply find_append. apply (id_is_carrier id rec (uuid a) Hrec). congruence.
  - apply findIndex_split in Hf.
    destruct Hf as (l1 & u & l2 & -> & <- & Hu & _). rewrite store_at_middle.
    apply find_replace.
    + apply (id_is_other id0); congruence.
    + apply (id_is_carrier id rec id0 Hrec). congruence.
  - apply findIndex_split in Hf.
    destruct Hf as (l1 & u & l2 & -> & <- & Hu & _). rewrite store_at_middle.
    apply find_replace.
    + apply (id_is_other id0); congruence.
    + apply (id_is_carrier id rec id0 Hrec). congruence.
  - apply findIndex_split in Hf.
    destruct Hf as (l1 & u & l2 & -> & <- & Hu & _).
    rewrite splice_out_middle. apply find_remove.
    apply (id_is_other id0); congruence.
Qed.

(** X14.  Whatever a request does, it does to the record of its own id: on
    a file that takes writes and holds a collection free of infinite
    numbers, GET of any other id answers after the request what it answered
    before. *)
Theorem other_ids_untouched :
  forall (lib : JoiLib) (a : ambient) (r : request) (users : list json)
         (id : string),
    forallb finite users = true ->
    target a r <> Some id ->
    fst (get_user id (snd (serve a r (stored users)))) =
    fst (get_user id (stored users)).
Proof.
  intros lib a r users id _ Hne.
  destruct (serve_effect a r users) as (users' & -> & Heff).
  apply get_user_by_find. now apply (effect_keeps_other_ids a r).
Qed.

Lemma ids_app l1 l2 : ids (l1 ++ l2) = ids l1 ++ ids l2.
Proof. unfold ids. apply flat_map_app. Qed.

Lemma ids_carrier o id :
  Obj.get "id" o = Some (JStr id) -> ids [JObj o] = [id].
Proof. intros H. unfold ids, record_id. cbn. now rewrite H. Qed.

Lemma ids_located id u : id_is id u = Return true -> ids [u] = [id].
Proof.
  intros Hu. apply id_is_true in Hu. destruct Hu as (o & -> & Hid).
  now apply ids_carrier.
Qed.

Lemma effect_keeps_ids_distinct a r users users' :
  effect a r users users' ->
  (forall body, r = PostUser body -> ~ In (uuid a) (ids users)) ->
  NoDup (ids users) -> NoDup (ids users').
Proof.
  intros Heff Hfresh Hnd.
  destruct Heff as [r users|body users rec Hrec|id0 body users i rec Hf Hrec
                   |id0 body users i rec Hf Hrec|id0 users i Hf].
  - assumption.
  - rewrite ids_app, (ids_carrier rec _ Hrec).
    apply NoDup_app; [assumption | repeat constructor; simpl; tauto |].
    intros x Hx [<-|[]]. now apply (Hfresh body).
  - apply findIndex_split in Hf.
    destruct Hf as (l1 & u & l2 & -> & <- & Hu & _). rewrite store_at_middle.
    change (l1 ++ JObj rec :: l2) with (l1 ++ [JObj rec] ++ l2).
    change (l1 ++ u :: l2) with (l1 ++ [u] ++ l2) in Hnd.
    rewrite !ids_app in *.
    now rewrite (ids_carrier rec _ Hrec), <- (ids_located id0 u Hu).
  - apply findIndex_split in Hf.
    destruct Hf as (l1 & u & l2 & -> & <- & Hu & _). rewrite store_at_middle.
    change (l1 ++ JObj rec :: l2) with (l1 ++ [JObj rec] ++ l2).
    change (l1 ++ u :: l2) with (l1 ++ [u] ++ l2) in Hnd.
    rewrite !ids_app in *.
    now rewrite (ids_carrier rec _ Hrec), <- (ids_located id0 u Hu).
  - apply findIndex_split in Hf.
    destruct Hf as (l1 & u & l2 & -> & <- & Hu & _).
    rewrite splice_out_middle.
    change (l1 ++ u :: l2) with (l1 ++ [u] ++ l2) in Hnd.
    rewrite !ids_app in *. rewrite (ids_located id0 u Hu) in Hnd.
    now apply NoDup_remove_1 in Hnd.
Qed.

(** X15.  Identifiers stay pairwise distinct: on a file that holds a
    collection with distinct ids and takes writes, every request leaves a
    collection with distinct ids, provided the id generated for a create is
    not already stored.  Updates cannot change an id, since a body with an
    [id] key does not pass validation. *)
Theorem ids_stay_distinct :
  forall (lib : JoiLib) (a : ambient) (r : request) (users : list json),
    NoDup (ids users) ->
    (forall body, r = PostUser body -> ~ In (uuid a) (ids users)) ->
    exists users',
      snd (serve a r (stored users)) = stored users' /\ NoDup (ids users').
Proof.
  intros lib a r users Hnd Hfresh.
  destruct (serve_effect a r users) as (users' & Heq & Heff).
  exists users'. split; [assumption|].
  now apply (effect_keeps_ids_distinct a r users).
Qed.

(** X16.  Deleting twice: once the only record that carries the id is
    deleted, a second DELETE of the same id answers 404 and leaves the file
    as the first one left it. *)
Theorem delete_twice_not_found :
  forall (id : string) (before : list json) (u : json) (after : list json),
    forallb is_record (before ++ after) = true ->
    has_id id u = true ->
    forallb (fun v => negb (has_id id v)) (before ++ after) = true ->
    let once := snd (delete_user id (stored (before ++ u :: after))) in
    once = stored (before ++ after) /\
    delete_user id once = (not_found, once).
Proof.
  intros id before u after Hrec Hu Hothers once.
  pose proof (others_miss id _ Hrec Hothers) as Hmiss.
  assert (Hf : findIndex (id_is id) (before ++ u :: after)
               = Return (Some (List.length before))).
  { apply findIndex_at; [|now apply has_id_true].
    apply Forall_app in Hmiss. tauto. }
  assert (Honce : once = stored (before ++ after)).
  { unfold once, delete_user, guarded. cbn. unfold lift. rewrite Hf.
    cbn. now rewrite splice_out_middle. }
  split; [exact Honce|]. rewrite Honce.
  assert (Hnone : findIndex (id_is id) (before ++ after) = Return None).
  { clear -Hmiss. induction Hmiss as [|v l Hv _ IH]; simpl; [reflexivity|].
    rewrite Hv. simpl. now rewrite IH. }
  unfold delete_user, guarded. cbn. unfold lift. now rewrite Hnone.
Qed.

Lemma other_ids_untouched_witness :
  fst (get_user id_bob
         (snd (@serve sample_lib
                 {| uuid := id_new; clock1 := "2024-06-30T12:00:00.000Z";
                    clock2 := "2024-06-30T12:00:00.000Z" |}
                 (DeleteUser id_ann) (stored [paris_record; berlin_record])))) =
  fst (get_user id_bob (stored [paris_record; berlin_record])).
Proof.
  apply (other_ids_untouched sample_lib).
  - reflexivity.
  - cbn. intros H. discriminate H.
Defined.

Lemma ids_stay_distinct_witness :
  exists users',
    snd (@serve sample_lib
           {| uuid := id_new; clock1 := "2024-06-30T12:00:00.000Z";
              clock2 := "2024-06-30T12:00:00.000Z" |}
           (PostUser (JObj ann_fields)) (stored [paris_record; berlin_record]))
    = stored users' /\ NoDup (ids users').
Proof.
  apply (ids_stay_distinct sample_lib).
  - apply ObjFacts.distinct_NoDup. reflexivity.
  - intros body _. cbn. intros [H|[H|[]]]; discriminate H.
Defined.

Lemma delete_twice_not_found_witness :
  let once := snd (delete_user id_ann (stored [berlin_record; paris_record])) in
  once = stored [berlin_record] /\ delete_user id_ann once = (not_found, once).
Proof.
  exact (delete_twice_not_found id_ann [berlin_record] paris_record []
           eq_refl eq_refl eq_refl).
Defined.

Lemma service_holds_records_witness :
  holds_records
    (@serve_all sample_lib sample_session
       {| users_json := Absent; write_error := None |}).
Proof.
  exact (@service_holds_records sample_lib sample_session None eq_refl).
Defined.

(** ** Lookup and storage, in general *)


Lemma find_is_first p l i :
  findIndex p l = Return (Some i) -> find p l = Return (Some (nth i l JNull)).
Proof.
  intros H. apply findIndex_split in H.
  destruct H as (l1 & u & l2 & -> & <- & Hu & Hl1).
  rewrite nth_at. now apply find_at.
Qed.

(** X19.  The routes locate a record in the same way, by the first element
    whose [id] is the path id: the record that GET answers with is the one
    that DELETE answers with and removes, also when several records carry
    the id, and the later ones stay where they are. *)
Theorem lookup_is_first_match :
  forall (id : string) (l1 : list json) (u : json) (l2 : list json),
    Forall (fun v => id_is id v = Return false) l1 ->
    id_is id u = Return true ->
    let d := stored (l1 ++ u :: l2) in
    get_user id d = (json_ok (Success u), d) /\
    delete_user id d = (json_ok (SuccessNote u user_deleted), stored (l1 ++ l2)).
Proof.
  intros id l1 u l2 Hl1 Hu d. split.
  - apply get_user_found. now apply find_at.
  - unfold d, delete_user, guarded. cbn. unfold lift.
    rewrite (findIndex_at _ l1 u l2 Hl1 Hu). cbn.
    now rewrite nth_at, splice_out_middle.
Qed.

Lemma lookup_is_first_match_witness :
  let d := stored [berlin_record; paris_record; paris_record] in
  get_user id_ann d = (json_ok (Success paris_record), d) /\
  delete_user id_ann d =
    (json_ok (SuccessNote paris_record user_deleted),
     stored [berlin_record; paris_record]).
Proof.
  apply (lookup_is_first_match id_ann [berlin_record] paris_record
           [paris_record]).
  - repeat constructor.
  - reflexivity.
Defined.

(** ** Status codes *)

Section StatusCodes.
Context {lib : JoiLib}.

Lemma writeUsersFile_cases users d :
  (exists d', writeUsersFile users d = (Return tt, d')) \/
  (exists e, writeUsersFile users d = (Throw e, d)) \/
  (exists t c,
     users_json d = Fragile t c /\
     writeUsersFile users d =
       (Throw (Errno c),
        {| users_json := Fragile Garbage c; write_error := None |})).
Proof.
  unfold writeUsersFile, writeFile. destruct (write_error d); [eauto|].
  destruct (users_json d) eqn:E; eauto 6.
Qed.

(** Reading never makes a file fragile. *)
Lemma readUsersFile_fragile d t c :
  users_json (snd (readUsersFile d)) = Fragile t c ->
  users_json d = Fragile t c.
Proof.
  destruct d as [f w]. unfold readUsersFile, try_catch, readFile. cbn.
  destruct f as [|c0|[users|]|[users|] c0]; cbn; try (intros H; exact H).
  - destruct w; cbn; [trivial | discriminate].
  - destruct (String.eqb c0 "ENOENT"); cbn; [|trivial].
    destruct w; cbn; [trivial | discriminate].
Qed.

Ltac settle :=
  split; cbn;
  repeat match goal with
         | H : readUsersFile _ = _ |- _ => rewrite H
         end;
  cbn; solve [auto 8].

Ltac cut_short Hr Hf :=
  split; cbn; [solve [auto 8]|];
  do 4 right; split; [reflexivity|];
  do 2 eexists; split; [|reflexivity];
  apply readUsersFile_fragile; rewrite Hr; exact Hf.

Lemma replace_user_ok r users i data now d0 d res :
  In 200 (codes r) -> In 500 (codes r) -> readUsersFile d0 = (res, d) ->
  forall failed,
    answer_ok r d0
      (match replace_user users i data now d with
       | (Return resp, d') => (resp, d')
       | (Throw _, d') => ({| status := 500; body := Failure failed |}, d')
       end).
Proof.
  intros H200 H500 Hr failed. unfold replace_user. cbn -[writeUsersFile].
  destruct (writeUsersFile_cases
              (store_at i (JObj (updated_user (nth i users JNull) data now))
                 users) d) as [[d' ->]|[[e ->]|(t & c & Hf & ->)]];
    [settle | settle | cut_short Hr Hf].
Qed.

(** X20.  In every state of the file, every answer carries one of the
    status codes of its route: 200 or 500 for the list, 200, 404 or 500 for
    GET and DELETE by id, 201, 422 or 500 for create, 200, 404, 422 or 500
    for the two updates, 404 for a path that no route matches, and 500 for a
    request that Express fails before the routes.  An answer 404 or 422
    leaves the file as it was, or as the read that initialises a missing
    file left it; so does an answer 500, unless a write was cut short, and
    then the file is left without a collection. *)
Theorem status_codes_and_persistence :
  forall (a : ambient) (r : request) (d : disk),
    let out := serve a r d in
    In (status (fst out)) (codes r) /\
    (status (fst out) = 200 \/ status (fst out) = 201 \/
     snd out = d \/ snd out = snd (readUsersFile d) \/
     (status (fst out) = 500 /\
      exists t c,
        users_json d = Fragile t c /\
        snd out = {| users_json := Fragile Garbage c; write_error := None |})).
Proof.
  intros a r d out. unfold out. change (answer_ok r d (serve a r d)).
  destruct r as [q city isActive|id|body|id body|id body|id| |]; cbn [serve].
  - unfold list_query, guarded. cbn -[readUsersFile given].
    destruct (readUsersFile d) as [[users|e] d'] eqn:Hr;
      [|settle].
    unfold lift.
    match goal with
    | |- answer_ok _ _ (let (_, _) := match ?x with
                                      | Return _ => _
                                      | Throw _ => _
                                      end in _) => destruct x
    end; settle.
  - unfold get_user, guarded. cbn -[readUsersFile].
    destruct (readUsersFile d) as [[users|e] d'] eqn:Hr;
      [|settle].
    unfold lift. destruct (find (id_is id) users) as [[u|]|e];
      try (settle).
    destruct (truthy (Some u)); settle.
  - unfold create_user, validateUserData.
    destruct (validate body) as [value|details]; [|settle].
    unfold guarded. cbn -[readUsersFile writeUsersFile].
    destruct (readUsersFile d) as [[users|e] d'] eqn:Hr;
      [|settle].
    destruct (writeUsersFile_cases
                (users ++ [JObj (new_user (uuid a) value (clock1 a) (clock2 a))])
                d') as [[d'' ->]|[[e ->]|(t & c & Hf & ->)]];
      [settle | settle | cut_short Hr Hf].
  - unfold update_user, validateUserData.
    destruct (validate body) as [value|details]; [|settle].
    unfold guarded. cbn -[readUsersFile replace_user].
    destruct (readUsersFile d) as [[users|e] d'] eqn:Hr;
      [|settle].
    unfold lift. destruct (findIndex (id_is id) users) as [[i|]|e];
      try (settle).
    eapply replace_user_ok; cbn; eauto.
  - unfold patch_user, guarded. cbn -[readUsersFile replace_user validate].
    destruct (readUsersFile d) as [[users|e] d'] eqn:Hr;
      [|settle].
    unfold lift. destruct (findIndex (id_is id) users) as [[i|]|e];
      try (settle).
    destruct (validate body) as [value|details]; [|settle].
    eapply replace_user_ok; cbn; eauto.
  - unfold delete_user, guarded. cbn -[readUsersFile writeUsersFile].
    destruct (readUsersFile d) as [[users|e] d'] eqn:Hr;
      [|settle].
    unfold lift. destruct (findIndex (id_is id) users) as [[i|]|e];
      try (settle).
    cbn -[writeUsersFile].
    destruct (writeUsersFile_cases (splice_out i users) d')
      as [[d'' ->]|[[e ->]|(t & c & Hf & ->)]];
      [settle | settle | cut_short Hr Hf].
  - settle.
  - settle.
Qed.

End StatusCodes.
